(** * Micro-bash: the line parser, the validators, the launcher and the
      supervisor of [microbash.c], embedded and verified.

    Conventions of the embedding.
    - A C string is the [string] of its characters before the terminator
      (so no character of a string is NUL); a [char *] that may be null is an
      [option string].
    - An array of [char *] is a list of cells; a cell that [realloc] handed
      out and nobody wrote yet is [Garbage].
    - [int] counters ([n_args], [n_commands], loop indices) are [nat]: they
      count tokens of one input line and never come near the range of [int];
      where the source subtracts, the subtraction is done in [Z].
    - Text written to a stream is kept as it is written, newline included.
    - [my_malloc], [my_realloc] and [my_strdup] are taken to succeed, and the
      [free_*] functions are not modelled. *)

From Stdlib Require Import ZArith Lia Ascii String.
From stdpp Require Import base option list strings pretty.
From Equations Require Import Equations.

Local Open Scope string_scope.
Local Open Scope nat_scope.

(** ** Strings of the C library *)

(** The newline character, and a line of text as [fprintf("...\n")] writes it. *)
Definition nl : string := String "010"%char "".

Definition line_of (msg : string) : string := msg +:+ nl.

(** [strchr delim c != NULL] for a character [c] that is not NUL. *)
Fixpoint strchr (delim : string) (c : ascii) : bool :=
  match delim with
  | "" => false
  | String d delim' => if Ascii.eqb d c then true else strchr delim' c
  end.

(** [s + strspn(s, delim)]: [s] without its leading delimiters. *)
Fixpoint skip_delims (delim s : string) : string :=
  match s with
  | "" => ""
  | String a s' => if strchr delim a then skip_delims delim s' else s
  end.

(** The token that starts [s] (its first [strcspn(s, delim)] characters) and,
    when a delimiter ends it, what follows that delimiter. *)
Fixpoint span_token (delim s : string) : string * option string :=
  match s with
  | "" => ("", None)
  | String a s' =>
      if strchr delim a then ("", Some s')
      else let '(tok, rest) := span_token delim s' in (String a tok, rest)
  end.

(** [strtok_r(s, delim, &saveptr)] on the text [s] still to be scanned: the
    token (or [None] for a null pointer) and the new [saveptr].  The first
    call of the source passes the string itself, the later ones pass 0 and
    continue from [saveptr]; both scan the text given here. *)
Definition strtok_r (delim s : string) : option string * string :=
  match skip_delims delim s with
  | "" => (None, "")
  | String a s' =>
      let '(tok, rest) := span_token delim (String a s') in
      (Some tok, default "" rest)
  end.

(** ** The data model *)

Definition NO_REDIR : Z := (-1)%Z.

Inductive check_t := CHECK_OK | CHECK_FAILED.

Definition CD : string := "cd".

(** One cell of an array of [char *]. *)
Inductive cell :=
| Garbage
| Null
| Ptr (s : string).

Record command_t := Command {
  n_args : nat;
  args : list cell;
  out_pathname : option string;
  in_pathname : option string;
}.

Record line_t := Line {
  n_commands : nat;
  commands : list command_t;
}.

#[global] Instance check_t_eq_dec : EqDecision check_t.
Proof. solve_decision. Defined.

#[global] Instance cell_eq_dec : EqDecision cell.
Proof. solve_decision. Defined.

#[global] Instance command_t_eq_dec : EqDecision command_t.
Proof. solve_decision. Defined.

#[global] Instance line_t_eq_dec : EqDecision line_t.
Proof. solve_decision. Defined.

(** ** The parser *)

Definition BLANKS : string := String " "%char (String "009"%char "").

Definition PIPE : string := "|".

Definition MSG_TWO_IN : string :=
  line_of "Parsing error: cannot have more than one input redirection".
Definition MSG_NO_IN_PATH : string :=
  line_of "Parsing error: no path specified for input redirection".
Definition MSG_TWO_OUT : string :=
  line_of "Parsing error: cannot have more than one output redirection".
Definition MSG_NO_OUT_PATH : string :=
  line_of "Parsing error: no path specified for output redirection".
Definition MSG_EMPTY : string := line_of "Parsing error: empty command".

Section WithEnvironment.

(** [getenv]: the value of a variable, or [None] for a null pointer. *)
Variable getenv : string -> option string.

(** The text a plain token stands for: the token itself, or for a token
    that starts with a dollar sign the value of the variable named by the
    rest of it, the empty string when there is none. *)
Definition expand (tmp : string) : string :=
  match tmp with
  | String "$"%char name =>
      match getenv name with
      | Some value => value
      | None => ""
      end
  | _ => tmp
  end.

(** [result->args[result->n_args++] = my_strdup(tmp);
     result->args[result->n_args] = 0;] *)
Definition push_arg (tmp : string) (result : command_t) : command_t :=
  let args1 := <[n_args result := Ptr tmp]> (args result) in
  {| n_args := S (n_args result);
     args := <[S (n_args result) := Null]> args1;
     out_pathname := out_pathname result;
     in_pathname := in_pathname result |}.

(** One turn of the [while (tmp)] loop of [parse_cmd] on the token [tmp]:
    the command as the turn leaves it, or the message printed before
    [goto fail]. *)
Definition parse_token (tmp : string) (result : command_t)
  : command_t + string :=
  let grown := resize (n_args result + 2) Garbage (args result) in
  match tmp with
  | String "<"%char path =>
      match in_pathname result with
      | Some _ => inr MSG_TWO_IN
      | None =>
          match path with
          | "" => inr MSG_NO_IN_PATH
          | _ =>
              inl {| n_args := n_args result; args := grown;
                     out_pathname := out_pathname result;
                     in_pathname := Some path |}
          end
      end
  | String ">"%char path =>
      match out_pathname result with
      | Some _ => inr MSG_TWO_OUT
      | None =>
          match path with
          | "" => inr MSG_NO_OUT_PATH
          | _ =>
              inl {| n_args := n_args result; args := grown;
                     out_pathname := Some path;
                     in_pathname := in_pathname result |}
          end
      end
  | _ =>
      inl (push_arg (expand tmp)
             {| n_args := n_args result; args := grown;
                out_pathname := out_pathname result;
                in_pathname := in_pathname result |})
  end.


(** [strtok_r] consumes text: after a token the text left is shorter, and it
    is never longer. *)
Lemma skip_delims_length delim s :
  String.length (skip_delims delim s) <= String.length s.
Proof.
  induction s as [|a s IH]; simpl; [lia|].
  destruct (strchr delim a); simpl; lia.
Qed.

Lemma span_token_length delim s tok rest :
  span_token delim s = (tok, Some rest) ->
  String.length rest < String.length s.
Proof.
  revert tok; induction s as [|a s IH]; intros tok; simpl; [congruence|].
  destruct (strchr delim a).
  - intros [= <- <-]. lia.
  - destruct (span_token delim s) as [t r] eqn:E.
    intros [= <- ->]. specialize (IH _ eq_refl). lia.
Qed.

Lemma strtok_r_shorter delim s tok saveptr :
  strtok_r delim s = (Some tok, saveptr) ->
  String.length saveptr < String.length s.
Proof.
  unfold strtok_r. pose proof (skip_delims_length delim s) as Hs.
  destruct (skip_delims delim s) as [|a s'] eqn:E; [congruence|].
  destruct (span_token delim (String a s')) as [t [r|]] eqn:Et.
  - intros [= <- <-]. apply span_token_length in Et. simpl in *. lia.
  - intros [= <- <-]. simpl in *. lia.
Qed.

(** What is left to do of a [strtok_r] loop: the text not scanned yet, and
    one more turn when a token is at hand. *)
Definition turns_left (tmp : option string) (saveptr : string) : nat :=
  match tmp with
  | Some _ => S (String.length saveptr)
  | None => 0
  end.

Lemma strtok_r_turns_left delim tok s :
  turns_left (strtok_r delim s).1 (strtok_r delim s).2 < turns_left (Some tok) s.
Proof.
  destruct (strtok_r delim s) as [[t|] r] eqn:E; simpl; [|lia].
  apply strtok_r_shorter in E. lia.
Qed.

(** The [while (tmp)] loop of [parse_cmd] with what follows it: the command
    (or [None] for a null pointer) and the text written to [stderr]. *)
Equations parse_cmd_loop (tmp : option string) (saveptr : string)
    (result : command_t) : option command_t * string
    by wf (turns_left tmp saveptr) lt :=
  parse_cmd_loop None _ result :=
    if decide (n_args result = 0) then (None, MSG_EMPTY)
    else (Some result, "");
  parse_cmd_loop (Some tok) saveptr result :=
    match parse_token tok result with
    | inr msg => (None, msg)
    | inl result' =>
        parse_cmd_loop (strtok_r BLANKS saveptr).1 (strtok_r BLANKS saveptr).2
          result'
    end.
Next Obligation. exact (strtok_r_turns_left BLANKS tok saveptr). Qed.

(** [memset] of the fresh [result] to zero: no argument, a null [args], no
    redirection. *)
Definition zero_command : command_t :=
  {| n_args := 0; args := []; out_pathname := None; in_pathname := None |}.

Definition parse_cmd (cmdstr : string) : option command_t * string :=
  parse_cmd_loop (strtok_r BLANKS cmdstr).1 (strtok_r BLANKS cmdstr).2
    zero_command.

(** [memset] of the fresh line to zero. *)
Definition zero_line : line_t := {| n_commands := 0; commands := [] |}.

(** [result->commands = my_realloc(result->commands, (n_commands + 1) cells);
     result->commands[result->n_commands++] = c;] the array is cut or grown
    to [n_commands + 1] cells and its last cell written. *)
Definition push_command (c : command_t) (result : line_t) : line_t :=
  {| n_commands := S (n_commands result);
     commands := take (n_commands result) (commands result) ++ [c] |}.

(** The [while (cmd)] loop of [parse_line] with the [return result] that
    follows it. *)
Equations parse_line_loop (cmd : option string) (saveptr : string)
    (result : line_t) : option line_t * string
    by wf (turns_left cmd saveptr) lt :=
  parse_line_loop None _ result := (Some result, "");
  parse_line_loop (Some seg) saveptr result :=
    match parse_cmd seg with
    | (None, err) => (None, err)
    | (Some c, err) =>
        let rest :=
          parse_line_loop (strtok_r PIPE saveptr).1 (strtok_r PIPE saveptr).2
            (push_command c result) in
        (rest.1, err +:+ rest.2)
    end.
Next Obligation. exact (strtok_r_turns_left PIPE seg saveptr). Qed.

Definition parse_line (line : string) : option line_t * string :=
  match strtok_r PIPE line with
  | (None, _) => (None, "")
  | (Some cmd, saveptr) => parse_line_loop (Some cmd) saveptr zero_line
  end.

End WithEnvironment.

(** ** The validators

    A validator yields its verdict and the text it wrote to [stderr]; [None]
    stands for a read outside an array or through a pointer that is not a
    string, which the source does not guard against. *)

Definition MSG_IN_NOT_FIRST : string :=
  line_of "Parsing error: cannot have input-redirection except in the first command".
Definition MSG_OUT_NOT_LAST : string :=
  line_of "Parsing error: cannot have output-redirection except in the last command".
Definition MSG_CD_IN_PIPE : string :=
  line_of "Parsing error: cannot have CD in pipe".
Definition MSG_CD_NOT_ALONE : string :=
  line_of "Parsing error: cannot have more that one command with CD".
Definition MSG_CD_IN : string :=
  line_of "Parsing error: cannot have input-redirection with CD".
Definition MSG_CD_OUT : string :=
  line_of "Parsing error: cannot have output-redirection with CD".
Definition MSG_CD_ARGS : string :=
  line_of "Parsing error: cannot have more than one argument with CD".

(** [l->commands[i]] *)
Definition command_at (l : line_t) (i : nat) : option command_t :=
  commands l !! i.

(** [c->args[i]] read as a string. *)
Definition arg_at (c : command_t) (i : nat) : option string :=
  match args c !! i with
  | Some (Ptr s) => Some s
  | _ => None
  end.

(** [i == l->n_commands - 1] *)
Definition is_last (l : line_t) (i : nat) : bool :=
  bool_decide (Z.of_nat i = (Z.of_nat (n_commands l) - 1)%Z).

(** The [for] loop of [check_redirections] from index [i], with [todo] turns
    to go, and the [return CHECK_OK] that follows it. *)
Fixpoint check_redirections_loop (l : line_t) (todo i : nat)
  : option (check_t * string) :=
  match todo with
  | 0 => Some (CHECK_OK, "")
  | S todo' =>
      c ← command_at l i;
      if bool_decide (is_Some (in_pathname c)) && negb (bool_decide (i = 0))
      then Some (CHECK_FAILED, MSG_IN_NOT_FIRST)
      else if bool_decide (is_Some (out_pathname c)) && negb (is_last l i)
      then Some (CHECK_FAILED, MSG_OUT_NOT_LAST)
      else check_redirections_loop l todo' (S i)
  end.

Definition check_redirections (l : line_t) : option (check_t * string) :=
  check_redirections_loop l (n_commands l) 0.

(** The first [for] loop of [check_cd], from index [i]: [Some (Some msg)]
    when it returns [CHECK_FAILED] after writing [msg], [Some None] when it
    runs to its end. *)
Fixpoint check_cd_loop (l : line_t) (todo i : nat)
  : option (option string) :=
  match todo with
  | 0 => Some None
  | S todo' =>
      c ← command_at l i;
      name ← arg_at c 0;
      if bool_decide (name = CD) then Some (Some MSG_CD_IN_PIPE)
      else check_cd_loop l todo' (S i)
  end.

Definition check_cd (l : line_t) : option (check_t * string) :=
  scan ← check_cd_loop l (n_commands l - 1) 1;
  match scan with
  | Some msg => Some (CHECK_FAILED, msg)
  | None =>
      c ← command_at l 0;
      name ← arg_at c 0;
      if negb (bool_decide (name = CD)) then Some (CHECK_OK, "")
      else if bool_decide (1 < n_commands l)
      then Some (CHECK_FAILED, MSG_CD_NOT_ALONE)
      else if bool_decide (is_Some (in_pathname c))
      then Some (CHECK_FAILED, MSG_CD_IN)
      else if bool_decide (is_Some (out_pathname c))
      then Some (CHECK_FAILED, MSG_CD_OUT)
      else if negb (bool_decide (n_args c = 2))
      then Some (CHECK_FAILED, MSG_CD_ARGS)
      else Some (CHECK_OK, "")
  end.

(** ** The operating system, as the shell sees it

    [os_t] is what the shell cannot decide: the environment, which paths can
    be opened or entered, the limits on descriptors and processes, the wait
    status each child ends with, and the names of the signals.  [world] is
    what changes while a line runs: the working directory, the descriptors
    the shell holds open, its children not waited for yet (in the order
    [waitpid] reports them), and the trace of what the shell did. *)

(** What a child does between [fork] and the new program. *)
Inductive action :=
| Dup2 (from_fd to_fd : Z)
| Close (fd : Z)
| Execvp (file : option string) (argv : list cell).

Inductive event :=
| Stderr (text : string)
| Stdout (text : string)
| Perror (prefix : string)
| Open (path : string) (writing : bool) (fd : Z)
| Pipe (read_end write_end : Z)
| Cloexec (fd : Z)
| Fork (pid : Z) (child : list action)
| Closed (fd : Z) (rv : Z)
| Chdir (dir : string) (rv : Z)
| Waited (pid status : Z).

Record os_t := Os {
  os_getenv : string -> option string;
  os_chdir : string -> string -> option string;
  os_readable : string -> bool;
  os_writable : string -> bool;
  os_fd_limit : nat;
  os_proc_limit : nat;
  os_status : Z -> Z;
  os_strsignal : Z -> string;
}.

Record world := World {
  w_cwd : string;
  w_fds : list Z;
  w_children : list Z;
  w_next_pid : Z;
  w_trace : list event;
}.

(** Why a run stops before its function returns: [exit(EXIT_FAILURE)], a
    failed [assert], or a read the source does not guard. *)
Inductive stop := Exit_failure | Assert_failed | Undefined.

Inductive result (A : Type) :=
| Ok (a : A)
| Stop (why : stop).
Arguments Ok {A} a.
Arguments Stop {A} why.

Definition M (A : Type) : Type := world -> result A * world.

#[global] Instance M_ret : MRet M := fun A a w => (Ok a, w).

#[global] Instance M_bind : MBind M := fun A B f m w =>
  match m w with
  | (Ok a, w') => f a w'
  | (Stop why, w') => (Stop why, w')
  end.

Definition stop_with {A} (why : stop) : M A := fun w => (Stop why, w).

(** The world after one more event. *)
Definition log (e : event) (w : world) : world :=
  {| w_cwd := w_cwd w; w_fds := w_fds w; w_children := w_children w;
     w_next_pid := w_next_pid w; w_trace := w_trace w ++ [e] |}.

Definition emit (e : event) : M unit := fun w => (Ok tt, log e w).

(** [fprintf(stderr, ...)] and [printf(...)] of a text; the empty text
    writes nothing. *)
Definition written (stream : string -> event) (text : string) (w : world)
  : world :=
  if decide (text = "") then w else log (stream text) w.

Definition write_stderr (text : string) : M unit := fun w =>
  (Ok tt, written Stderr text w).

Definition write_stdout (text : string) : M unit := fun w =>
  (Ok tt, written Stdout text w).

Definition perror (prefix : string) : M unit := emit (Perror prefix).

Definition fatal_errno {A} (msg : string) : M A :=
  perror msg;; stop_with Exit_failure.

Definition assert (b : bool) : M unit :=
  if b then mret tt else stop_with Assert_failed.

(** The value of an expression that may read outside its array. *)
Definition defined {A} (x : option A) : M A :=
  match x with
  | Some a => mret a
  | None => stop_with Undefined
  end.

(** The lowest descriptor that is not open. *)
Fixpoint lowest_free_from (fuel : nat) (fd : Z) (fds : list Z) : Z :=
  match fuel with
  | 0 => fd
  | S fuel' =>
      if decide (fd ∈ fds) then lowest_free_from fuel' (fd + 1)%Z fds else fd
  end.

Definition lowest_free (fds : list Z) : Z :=
  lowest_free_from (length fds) 0%Z fds.

Definition set_fds (fds : list Z) (w : world) : world :=
  {| w_cwd := w_cwd w; w_fds := fds; w_children := w_children w;
     w_next_pid := w_next_pid w; w_trace := w_trace w |}.

Section WithOs.

Variable os : os_t.

(** [open(path, O_RDONLY)], or with [writing]
    [open(path, O_WRONLY | O_CREAT | O_TRUNC, 0664)]: the new descriptor,
    or -1. *)
Definition sys_open (path : string) (writing : bool) : M Z := fun w =>
  let allowed := if writing then os_writable os path else os_readable os path in
  if allowed && bool_decide (length (w_fds w) < os_fd_limit os) then
    let fd := lowest_free (w_fds w) in
    (Ok fd, log (Open path writing fd) (set_fds (fd :: w_fds w) w))
  else (Ok (-1)%Z, log (Open path writing (-1)) w).

(** [pipe(fds)]: the two ends, or [None] when it returns -1. *)
Definition sys_pipe : M (option (Z * Z)) := fun w =>
  if bool_decide (length (w_fds w) + 2 <= os_fd_limit os) then
    let rd := lowest_free (w_fds w) in
    let wr := lowest_free (rd :: w_fds w) in
    (Ok (Some (rd, wr)), log (Pipe rd wr) (set_fds (wr :: rd :: w_fds w) w))
  else (Ok None, w).

(** [fcntl(fd, F_SETFD, FD_CLOEXEC)] *)
Definition sys_cloexec (fd : Z) : M Z := fun w =>
  if decide (fd ∈ w_fds w) then
    (Ok 0%Z, log (Cloexec fd) w)
  else (Ok (-1)%Z, w).

(** [close(fd)] *)
Definition sys_close (fd : Z) : M Z := fun w =>
  if decide (fd ∈ w_fds w) then
    (Ok 0%Z,
     log (Closed fd 0) (set_fds (filter (fun x => x ≠ fd) (w_fds w)) w))
  else (Ok (-1)%Z, log (Closed fd (-1)) w).

(** [fork()] as the parent sees it: the child's process id, or -1.  The
    child runs [child] on its own. *)
Definition sys_fork (child : list action) : M Z := fun w =>
  if bool_decide (length (w_children w) < os_proc_limit os) then
    let pid := w_next_pid w in
    (Ok pid,
     {| w_cwd := w_cwd w; w_fds := w_fds w;
        w_children := w_children w ++ [pid];
        w_next_pid := (pid + 1)%Z;
        w_trace := w_trace w ++ [Fork pid child] |})
  else (Ok (-1)%Z, w).

(** [chdir(newdir)]: on failure the working directory stays as it is. *)
Definition sys_chdir (newdir : string) : M Z := fun w =>
  match os_chdir os (w_cwd w) newdir with
  | Some cwd' =>
      (Ok 0%Z,
       {| w_cwd := cwd'; w_fds := w_fds w; w_children := w_children w;
          w_next_pid := w_next_pid w;
          w_trace := w_trace w ++ [Chdir newdir 0] |})
  | None => (Ok (-1)%Z, log (Chdir newdir (-1)) w)
  end.

(** [waitpid(-1, &status, 0)]: the process id and wait status of the next
    child that ended, or -1 (with [errno] set to [ECHILD]) when the shell has
    no child left; [status] is then left as it was. *)
Definition sys_waitpid (status : Z) (w : world) : Z * Z * world :=
  match w_children w with
  | [] => ((-1)%Z, status, w)
  | pid :: rest =>
      (pid, os_status os pid,
       {| w_cwd := w_cwd w; w_fds := w_fds w; w_children := rest;
          w_next_pid := w_next_pid w;
          w_trace := w_trace w ++ [Waited pid (os_status os pid)] |})
  end.

(** The wait-status macros of [<sys/wait.h>], in the encoding of Linux. *)
Definition WTERMSIG (status : Z) : Z := Z.land status 127.

Definition WEXITSTATUS (status : Z) : Z :=
  Z.shiftr (Z.land status 65280) 8.

Definition WIFEXITED (status : Z) : bool := bool_decide (WTERMSIG status = 0%Z).

(** [(signed char) x] for [0 <= x < 256]. *)
Definition to_signed_char (x : Z) : Z :=
  if bool_decide (x < 128)%Z then x else (x - 256)%Z.

Definition WIFSIGNALED (status : Z) : bool :=
  bool_decide (0 < Z.shiftr (to_signed_char (Z.land status 127 + 1)) 1)%Z.

(** ** The supervisor *)

Definition exit_report (pid exit_status : Z) : string :=
  line_of ("Child with PID " +:+ pretty pid +:+ " exited with status "
           +:+ pretty exit_status +:+ ".").

Definition signal_report (pid signal_num : Z) : string :=
  line_of ("Child with PID " +:+ pretty pid +:+ " was killed by signal "
           +:+ pretty signal_num +:+ " (" +:+ os_strsignal os signal_num
           +:+ ").").

(** The body of the [while] loop of [wait_for_children]: what it prints
    for the child [pid] that ended with [status]. *)
Definition report_child (pid status : Z) : string :=
  if WIFEXITED status then
    let exit_status := WEXITSTATUS status in
    if negb (bool_decide (exit_status = 0%Z)) then exit_report pid exit_status
    else ""
  else if WIFSIGNALED status then
    let signal_num := WTERMSIG status in
    signal_report pid signal_num
  else "".

(** The events of one turn of the loop: the wait, and the report if any. *)
Definition turn_events (pid : Z) : list event :=
  Waited pid (os_status os pid)
  :: (if decide (report_child pid (os_status os pid) = "") then []
      else [Stdout (report_child pid (os_status os pid))]).

Definition inspect {A} (a : A) : {b | a = b} := exist _ a eq_refl.

Lemma sys_waitpid_fewer status w pid status' w' :
  sys_waitpid status w = (pid, status', w') ->
  (0 < pid)%Z ->
  length (w_children w') < length (w_children w).
Proof.
  unfold sys_waitpid. destruct (w_children w) as [|p rest] eqn:E.
  - intros [= <- <- <-]. lia.
  - intros [= <- <- <-] _. simpl. lia.
Qed.

(** [wait_for_children()], with [status] the value its variable holds
    before the next call of [waitpid]. *)
Equations wait_for_children_loop (status : Z) (w : world) : result unit * world
    by wf (length (w_children w)) lt :=
  wait_for_children_loop status w with inspect (sys_waitpid status w) := {
    | exist _ (pid, status', w') Hcall with decide (0 < pid)%Z := {
      | left Hpid =>
          wait_for_children_loop status'
            (written Stdout (report_child pid status') w')
      | right _ => (Ok tt, w')
      }
    }.
Next Obligation.
  apply sys_waitpid_fewer in Hcall; [|done].
  unfold written. destruct (decide _); done.
Qed.

Definition wait_for_children : M unit := wait_for_children_loop 0%Z.

(** ** The launcher *)

Definition STDIN_FILENO : Z := 0%Z.
Definition STDOUT_FILENO : Z := 1%Z.

(** [redirect(from_fd, to_fd)], which only a child runs. *)
Definition redirect (from_fd to_fd : Z) : list action :=
  if negb (bool_decide (from_fd = NO_REDIR)) && negb (bool_decide (from_fd = to_fd))
  then [Dup2 from_fd to_fd; Close from_fd]
  else [].

(** What the child of [run_child] does, up to the new program. *)
Definition child_of (c : command_t) (c_stdin c_stdout : Z) : list action :=
  redirect c_stdin STDIN_FILENO ++ redirect c_stdout STDOUT_FILENO
  ++ [Execvp (arg_at c 0) (args c)].

Definition run_child (c : command_t) (c_stdin c_stdout : Z) : M unit :=
  pid ← sys_fork (child_of c c_stdin c_stdout);
  if bool_decide (pid < 0)%Z then fatal_errno "fork failed on run_child"
  else mret tt.

Definition change_current_directory (newdir : string) : M unit :=
  rv ← sys_chdir newdir;
  if bool_decide (rv = (-1)%Z) then perror "error in change directory"
  else mret tt.

Definition close_if_needed (fd : Z) : M unit :=
  if bool_decide (fd = NO_REDIR) then mret tt
  else
    rv ← sys_close fd;
    if negb (bool_decide (rv = 0%Z)) then perror "close in close_if_needed"
    else mret tt.

(** The input of the command [c], the [a]-th of the line: [None] when the
    function returns because the file cannot be opened. *)
Definition open_input (c : command_t) (a : nat) (next_stdin : Z)
  : M (option Z) :=
  match in_pathname c with
  | Some path =>
      assert (bool_decide (a = 0));;
      curr_stdin ← sys_open path false;
      if bool_decide (curr_stdin < 0)%Z then perror path;; mret None
      else mret (Some curr_stdin)
  | None => mret (Some next_stdin)
  end.

(** The output of the command [c] and the input of the next one: [None]
    when the function returns because the file cannot be opened. *)
Definition open_output (l : line_t) (c : command_t) (a : nat) (next_stdin : Z)
  : M (option (Z * Z)) :=
  match out_pathname c with
  | Some path =>
      assert (is_last l a);;
      curr_stdout ← sys_open path true;
      if bool_decide (curr_stdout < 0)%Z then perror path;; mret None
      else mret (Some (curr_stdout, next_stdin))
  | None =>
      if negb (is_last l a) then
        fds ← sys_pipe;
        match fds with
        | None => fatal_errno "pipe"
        | Some (rd, wr) =>
            rv0 ← sys_cloexec rd;
            if bool_decide (rv0 = (-1)%Z) then fatal_errno "fcntl read-end"
            else
              rv1 ← sys_cloexec wr;
              if bool_decide (rv1 = (-1)%Z) then fatal_errno "fcntl write-end"
              else mret (Some (wr, rd))
        end
      else mret (Some (NO_REDIR, next_stdin))
  end.

(** The [for] loop of [execute_line] from index [a], with [todo] turns to
    go, and the [wait_for_children()] that follows it. *)
Fixpoint execute_line_loop (l : line_t) (todo a : nat) (next_stdin : Z)
  : M unit :=
  match todo with
  | 0 => wait_for_children
  | S todo' =>
      c ← defined (command_at l a);
      input ← open_input c a next_stdin;
      match input with
      | None => mret tt
      | Some curr_stdin =>
          output ← open_output l c a next_stdin;
          match output with
          | None => mret tt
          | Some (curr_stdout, next_stdin') =>
              run_child c curr_stdin curr_stdout;;
              close_if_needed curr_stdin;;
              close_if_needed curr_stdout;;
              execute_line_loop l todo' (S a) next_stdin'
          end
      end
  end.

Definition execute_line (l : line_t) : M unit :=
  c0 ← defined (command_at l 0);
  name ← defined (arg_at c0 0);
  if bool_decide (CD = name) then
    assert (bool_decide (n_commands l = 1) && bool_decide (n_args c0 = 2));;
    newdir ← defined (arg_at c0 1);
    change_current_directory newdir
  else execute_line_loop l (n_commands l) 0 NO_REDIR.

(** A validator run by the shell: its text goes to [stderr]. *)
Definition run_check (verdict : option (check_t * string)) : M check_t :=
  '(rv, err) ← defined verdict;
  write_stderr err;;
  mret rv.

Definition execute (line : string) : M unit :=
  let '(l, err) := parse_line (os_getenv os) line in
  write_stderr err;;
  match l with
  | Some l =>
      ok_redir ← run_check (check_redirections l);
      if bool_decide (ok_redir = CHECK_OK) then
        ok_cd ← run_check (check_cd l);
        if bool_decide (ok_cd = CHECK_OK) then execute_line l else mret tt
      else mret tt
  | None => mret tt
  end.

End WithOs.

(** ** The parser read through its tokens *)

(** The first of the pieces that the delimiters cut [s] into, and the
    others: every delimiter cuts, so a piece may be empty. *)
Fixpoint split_first (delim s : string) : string * list string :=
  match s with
  | "" => ("", [])
  | String a s' =>
      let '(seg, segs) := split_first delim s' in
      if strchr delim a then ("", seg :: segs) else (String a seg, segs)
  end.

Definition split (delim s : string) : list string :=
  let '(seg, segs) := split_first delim s in seg :: segs.

(** The pieces that are not empty: the tokens [strtok_r] yields in turn. *)
Definition fields (delim s : string) : list string :=
  filter (fun seg => seg ≠ "") (split delim s).

(** The pipe-delimited segments of a line, and whether a segment holds a
    token. *)
Definition segments (line : string) : list string := split PIPE line.

Definition has_token (seg : string) : bool :=
  match fields BLANKS seg with
  | [] => false
  | _ :: _ => true
  end.

(** What a [strtok_r] loop still has to visit: the token at hand and the
    fields of the text not scanned yet. *)
Definition to_visit (delim : string) (tmp : option string) (saveptr : string)
  : list string :=
  match tmp with
  | Some tok => tok :: fields delim saveptr
  | None => []
  end.

(** [parse_cmd]'s loop over the tokens it visits. *)
Fixpoint parse_tokens (getenv : string -> option string) (toks : list string)
    (result : command_t) : option command_t * string :=
  match toks with
  | [] =>
      if decide (n_args result = 0) then (None, MSG_EMPTY)
      else (Some result, "")
  | tok :: toks' =>
      match parse_token getenv tok result with
      | inl result' => parse_tokens getenv toks' result'
      | inr msg => (None, msg)
      end
  end.

(** [parse_line]'s loop over the segments it visits. *)
Fixpoint parse_segments (getenv : string -> option string)
    (segs : list string) (result : line_t) : option line_t * string :=
  match segs with
  | [] => (Some result, "")
  | seg :: segs' =>
      match parse_cmd getenv seg with
      | (None, err) => (None, err)
      | (Some c, err) =>
          let rest := parse_segments getenv segs' (push_command c result) in
          (rest.1, err +:+ rest.2)
      end
  end.

(** ** Well-formed commands and lines *)

(** The first [n_args] cells of [args] are strings. *)
Definition args_are_strings (c : command_t) : Prop :=
  ∀ i, i < n_args c → ∃ s, args c !! i = Some (Ptr s).

(** What [parse_cmd] keeps true while it builds a command: the sanity
    check of [free_command]. *)
Definition command_inv (c : command_t) : Prop :=
  (n_args c = 0 ∨ args c !! n_args c = Some Null) ∧ args_are_strings c.

(** A command in the format of [execv]: at least one argument, and a null
    pointer after the last. *)
Definition wf_command (c : command_t) : Prop :=
  1 ≤ n_args c ∧ args c !! n_args c = Some Null ∧ args_are_strings c.

Definition line_inv (l : line_t) : Prop :=
  length (commands l) = n_commands l ∧ Forall wf_command (commands l).

Definition wf_line (l : line_t) : Prop := 1 ≤ n_commands l ∧ line_inv l.

(** ** Misplaced redirections and built-ins *)

(** An input redirection on a command that is not the first one. *)
Definition misplaced_input (i : nat) (c : command_t) : Prop :=
  in_pathname c ≠ None ∧ i ≠ 0.

(** An output redirection on a command that is not the last one. *)
Definition misplaced_output (l : line_t) (i : nat) (c : command_t) : Prop :=
  out_pathname c ≠ None ∧ i ≠ n_commands l - 1.

(** The command is the built-in: its first argument is [cd]. *)
Definition is_cd (c : command_t) : Prop := arg_at c 0 = Some "cd".

(** What [check_cd] asks of a first command that is the built-in. *)
Definition cd_alone (l : line_t) (c : command_t) : Prop :=
  n_commands l = 1 ∧ in_pathname c = None ∧ out_pathname c = None
  ∧ n_args c = 2.

(** A line of [n] pipe characters. *)
Fixpoint pipes (n : nat) : string :=
  match n with
  | 0 => ""
  | S n' => String "|"%char (pipes n')
  end.

(** The number of pipe-delimited segments of a line that hold a token. *)
Definition token_segments (line : string) : nat :=
  length (filter (fun seg => has_token seg = true) (segments line)).

(** A run that never stops on a read out of bounds. *)
Definition never_undefined {A} (m : M A) : Prop :=
  ∀ w, (m w).1 ≠ Stop Undefined.

(** ** Plain argument tokens *)

(** No character of [s] is a delimiter. *)
Fixpoint no_delim (delim s : string) : bool :=
  match s with
  | "" => true
  | String a s' => negb (strchr delim a) && no_delim delim s'
  end.

(** A token that is an argument: not empty, free of blanks, and not a
    redirection. *)
Definition plain_token (tok : string) : Prop :=
  match tok with
  | "" => False
  | String a _ => a ≠ "<"%char ∧ a ≠ ">"%char
  end ∧ no_delim BLANKS tok = true.

(** ** A small system to run examples on *)

(** An environment where no variable is set, and one where [X] is 5. *)
Definition unset_env : string → option string := fun _ => None.

Definition demo_env : string → option string :=
  fun name => if decide (name = "X") then Some "5" else None.

(** [/tmp] is the only directory to enter, [in.txt] the only file to read,
    [out.txt] the only one to write; the child 100 exits with status 3, the
    child 101 is killed by signal 9, the others exit with status 0. *)
Definition demo_os : os_t :=
  {| os_getenv := demo_env;
     os_chdir := fun _ dir => if decide (dir = "/tmp") then Some "/tmp" else None;
     os_readable := fun path => bool_decide (path = "in.txt");
     os_writable := fun path => bool_decide (path = "out.txt");
     os_fd_limit := 16;
     os_proc_limit := 8;
     os_status := fun pid =>
       if decide (pid = 100%Z) then 768%Z
       else if decide (pid = 101%Z) then 9%Z else 0%Z;
     os_strsignal := fun signal_num =>
       if decide (signal_num = 9%Z) then "Killed" else "Unknown signal" |}.

Definition demo_world : world :=
  {| w_cwd := "/"; w_fds := [0; 1; 2]%Z; w_children := [];
     w_next_pid := 100%Z; w_trace := [] |}.

(** The lines "a >x | b", "cd /tmp" and "ls -l | wc" as [parse_line]
    returns them. *)
Definition line_a_to_x_b : line_t :=
  {| n_commands := 2;
     commands :=
       [ {| n_args := 1; args := [Ptr "a"; Null; Garbage];
            out_pathname := Some "x"; in_pathname := None |};
         {| n_args := 1; args := [Ptr "b"; Null];
            out_pathname := None; in_pathname := None |} ] |}.

Definition command_cd_tmp : command_t :=
  {| n_args := 2; args := [Ptr "cd"; Ptr "/tmp"; Null];
     out_pathname := None; in_pathname := None |}.

Definition line_cd_tmp : line_t :=
  {| n_commands := 1; commands := [command_cd_tmp] |}.

Definition line_ls_wc : line_t :=
  {| n_commands := 2;
     commands :=
       [ {| n_args := 2; args := [Ptr "ls"; Ptr "-l"; Null];
            out_pathname := None; in_pathname := None |};
         {| n_args := 1; args := [Ptr "wc"; Null];
            out_pathname := None; in_pathname := None |} ] |}.

(** The segment "sort <in.txt -r $X >out.txt" as [parse_cmd] returns it
    where [X] is 5, and the lines "sort <missing.txt | wc" and
    "sort <in.txt | uniq $X | wc >out.txt" as [parse_line] returns them. *)
Definition command_sort : command_t :=
  {| n_args := 3; args := [Ptr "sort"; Ptr "-r"; Ptr "5"; Null; Garbage];
     out_pathname := Some "out.txt"; in_pathname := Some "in.txt" |}.

Definition command_sort_missing : command_t :=
  {| n_args := 1; args := [Ptr "sort"; Null; Garbage];
     out_pathname := None; in_pathname := Some "missing.txt" |}.

Definition line_sort_missing : line_t :=
  {| n_commands := 2;
     commands :=
       [ command_sort_missing;
         {| n_args := 1; args := [Ptr "wc"; Null];
            out_pathname := None; in_pathname := None |} ] |}.

Definition line_sort_uniq_wc : line_t :=
  {| n_commands := 3;
     commands :=
       [ {| n_args := 1; args := [Ptr "sort"; Null; Garbage];
            out_pathname := None; in_pathname := Some "in.txt" |};
         {| n_args := 2; args := [Ptr "uniq"; Ptr "5"; Null];
            out_pathname := None; in_pathname := None |};
         {| n_args := 1; args := [Ptr "wc"; Null; Garbage];
            out_pathname := Some "out.txt"; in_pathname := None |} ] |}.


(** ** The tokens of a command, by kind *)

(** What the first character of a token makes of it in [parse_cmd]. *)
Inductive token_kind :=
| Input (path : string)
| Output (path : string)
| Argument (text : string).

Definition kind_of (tok : string) : token_kind :=
  match tok with
  | String "<"%char path => Input path
  | String ">"%char path => Output path
  | _ => Argument tok
  end.

(** The paths of the input redirections among [toks], those of the output
    redirections, and the other tokens, each in the order of [toks]. *)
Definition input_paths (toks : list string) : list string :=
  omap (fun tok => match kind_of tok with
                   | Input path => Some path
                   | _ => None
                   end) toks.

Definition output_paths (toks : list string) : list string :=
  omap (fun tok => match kind_of tok with
                   | Output path => Some path
                   | _ => None
                   end) toks.

Definition argument_tokens (toks : list string) : list string :=
  omap (fun tok => match kind_of tok with
                   | Argument text => Some text
                   | _ => None
                   end) toks.

(** The command after the [my_realloc] that opens a turn of [parse_cmd]'s
    loop. *)
Definition grown (c : command_t) : command_t :=
  {| n_args := n_args c;
     args := resize (n_args c + 2) Garbage (args c);
     out_pathname := out_pathname c;
     in_pathname := in_pathname c |}.

(** A run that, when it does not return, has called [exit]: no assertion
    fails in it and it reads nothing out of bounds. *)
Definition returns_or_exits {A} (m : M A) : Prop :=
  ∀ w, match (m w).1 with
       | Ok _ => True
       | Stop why => why = Exit_failure
       end.

(** The shell in [w] has just given up for want of descriptors or of
    processes: the last thing it did is the [perror] of a [pipe] or of a
    [fork] that failed, and the table in question is full. *)
Definition out_of_resources (os : os_t) (w : world) : Prop :=
  (last (w_trace w) = Some (Perror "pipe")
   ∧ os_fd_limit os < length (w_fds w) + 2)
  ∨ (last (w_trace w) = Some (Perror "fork failed on run_child")
     ∧ os_proc_limit os ≤ length (w_children w)).

(** A run that stops only through [exit], and then out of resources; it
    keeps the next process id positive. *)
Definition exits_for_resources (os : os_t) {A} (m : M A) : Prop :=
  ∀ w, (0 < w_next_pid w)%Z →
    match m w with
    | (Ok _, w') => (0 < w_next_pid w')%Z
    | (Stop why, w') => why = Exit_failure ∧ out_of_resources os w'
    end.

(** ** Reading a trace *)

(** The children forked in a stretch of trace, with their process ids, and
    the process ids waited for, in order. *)
Definition forked (evs : list event) : list (Z * list action) :=
  omap (fun e => match e with
                 | Fork pid child => Some (pid, child)
                 | _ => None
                 end) evs.

Definition waited (evs : list event) : list Z :=
  omap (fun e => match e with
                 | Waited pid _ => Some pid
                 | _ => None
                 end) evs.

(** An event that shows no failure: no error printed, no [open] and no
    [close] that failed. *)
Definition quiet (e : event) : Prop :=
  match e with
  | Perror _ => False
  | Open _ _ fd => (0 ≤ fd)%Z
  | Closed _ rv => rv = 0%Z
  | _ => True
  end.

(** The descriptor [fd] as a list: nothing for [NO_REDIR]. *)
Definition held (fd : Z) : list Z :=
  if decide (fd = NO_REDIR) then [] else [fd].

(** The world with the descriptors [fds], the new children [pids] and the
    further events [evs]. *)
Definition advanced (fds pids : list Z) (evs : list event) (w : world)
  : world :=
  {| w_cwd := w_cwd w; w_fds := fds;
     w_children := w_children w ++ pids;
     w_next_pid := (w_next_pid w + Z.of_nat (length pids))%Z;
     w_trace := w_trace w ++ evs |}.

(** The descriptor is [NO_REDIR], or a descriptor that is not in [base]. *)
Definition fresh_or_none (fd : Z) (base : list Z) : Prop :=
  fd = NO_REDIR ∨ ((0 ≤ fd)%Z ∧ fd ∉ base).

(** What [close_if_needed] adds to the trace when the descriptor is open. *)
Definition closes (fd : Z) : list event :=
  if decide (fd = NO_REDIR) then [] else [Closed fd 0].

(** A line ready to be launched in [w]: it parses to [l] and passes both
    checks, its first command is not the built-in, its redirection files
    can be opened, there is room for three more descriptors and for one
    more process per command, and process ids are positive. *)
Definition ready_to_launch (os : os_t) (line : string) (l : line_t)
    (w : world) : Prop :=
  parse_line (os_getenv os) line = (Some l, "")
  ∧ check_redirections l = Some (CHECK_OK, "")
  ∧ check_cd l = Some (CHECK_OK, "")
  ∧ (∀ c0, commands l !! 0 = Some c0 → arg_at c0 0 ≠ Some "cd")
  ∧ (∀ c path, c ∈ commands l → in_pathname c = Some path →
       os_readable os path = true)
  ∧ (∀ c path, c ∈ commands l → out_pathname c = Some path →
       os_writable os path = true)
  ∧ length (w_fds w) + 3 ≤ os_fd_limit os
  ∧ length (w_children w) + n_commands l ≤ os_proc_limit os
  ∧ (0 < w_next_pid w)%Z
  ∧ Forall (fun pid => 0 < pid)%Z (w_children w).

(** The process ids of the children of a line of [n] commands launched in
    [w]. *)
Definition new_pids (w : world) (n : nat) : list Z :=
  seqZ (w_next_pid w) (Z.of_nat n).

(** * Properties *)

(** ** [strtok_r] yields the fields of the text, one at a time *)

Lemma split_cons delim a s :
  split delim (String a s) =
  if strchr delim a then "" :: split delim s
  else match split delim s with
       | seg :: segs => String a seg :: segs
       | [] => []
       end.
Proof.
  unfold split; simpl. destruct (split_first delim s) as [seg segs].
  by destruct (strchr delim a).
Qed.

Lemma fields_skip_delims delim s :
  fields delim (skip_delims delim s) = fields delim s.
Proof.
  induction s as [|a s IH]; simpl; [done|].
  destruct (strchr delim a) eqn:Ha; [|done].
  rewrite IH. unfold fields. rewrite split_cons, Ha.
  by rewrite filter_cons_False by (intros ?; done).
Qed.

Lemma skip_delims_head delim s a s' :
  skip_delims delim s = String a s' -> strchr delim a = false.
Proof.
  induction s as [|b s IH]; simpl; [done|].
  destruct (strchr delim b) eqn:Hb; [done|]. by intros [= <- <-].
Qed.

Lemma span_token_split delim s tok rest :
  span_token delim s = (tok, rest) ->
  split delim s = tok :: match rest with
                         | Some r => split delim r
                         | None => []
                         end.
Proof.
  revert tok rest. induction s as [|a s IH]; intros tok rest; simpl.
  - by intros [= <- <-].
  - rewrite split_cons. destruct (strchr delim a).
    + by intros [= <- <-].
    + destruct (span_token delim s) as [t r].
      intros [= <- <-]. by rewrite (IH _ _ eq_refl).
Qed.

Lemma strtok_r_None delim s saveptr :
  strtok_r delim s = (None, saveptr) -> fields delim s = [].
Proof.
  unfold strtok_r. rewrite <- (fields_skip_delims delim s).
  destruct (skip_delims delim s) as [|a s']; [done|].
  by destruct (span_token delim (String a s')).
Qed.

Lemma strtok_r_Some delim s tok saveptr :
  strtok_r delim s = (Some tok, saveptr) ->
  tok ≠ "" ∧ fields delim s = tok :: fields delim saveptr.
Proof.
  unfold strtok_r. rewrite <- (fields_skip_delims delim s).
  destruct (skip_delims delim s) as [|a s'] eqn:Hs; [done|].
  apply skip_delims_head in Hs.
  destruct (span_token delim (String a s')) as [t r] eqn:Ht.
  intros [= <- <-].
  assert (t ≠ "") as Hne.
  { simpl in Ht. rewrite Hs in Ht.
    destruct (span_token delim s'). by injection Ht as <- _. }
  split; [done|]. unfold fields at 1.
  rewrite (span_token_split _ _ _ _ Ht), filter_cons_True by done.
  by destruct r.
Qed.

Lemma to_visit_strtok_r delim s :
  to_visit delim (strtok_r delim s).1 (strtok_r delim s).2 = fields delim s.
Proof.
  destruct (strtok_r delim s) as [[tok|] saveptr] eqn:E; simpl.
  - by apply strtok_r_Some in E as [_ ->].
  - by apply strtok_r_None in E as ->.
Qed.


Section ParserTokens.

Variable getenv : string -> option string.

Lemma parse_cmd_loop_tokens tmp saveptr result :
  parse_cmd_loop getenv tmp saveptr result =
  parse_tokens getenv (to_visit BLANKS tmp saveptr) result.
Proof.
  remember (turns_left tmp saveptr) as n eqn:Hn.
  revert tmp saveptr result Hn.
  induction (lt_wf n) as [n _ IH]. intros [tok|] saveptr result ->.
  - rewrite parse_cmd_loop_equation_1. simpl.
    destruct (parse_token getenv tok result) as [result'|msg]; [|done].
    rewrite (IH _ (strtok_r_turns_left BLANKS tok saveptr) _ _ _ eq_refl).
    by rewrite to_visit_strtok_r.
  - by rewrite parse_cmd_loop_equation_2.
Qed.

Lemma parse_cmd_tokens cmdstr :
  parse_cmd getenv cmdstr =
  parse_tokens getenv (fields BLANKS cmdstr) zero_command.
Proof.
  unfold parse_cmd. by rewrite parse_cmd_loop_tokens, to_visit_strtok_r.
Qed.

Lemma parse_line_loop_segments cmd saveptr result :
  parse_line_loop getenv cmd saveptr result =
  parse_segments getenv (to_visit PIPE cmd saveptr) result.
Proof.
  remember (turns_left cmd saveptr) as n eqn:Hn.
  revert cmd saveptr result Hn.
  induction (lt_wf n) as [n _ IH]. intros [seg|] saveptr result ->.
  - rewrite parse_line_loop_equation_1. simpl.
    destruct (parse_cmd getenv seg) as [[c|] err]; [|done].
    rewrite (IH _ (strtok_r_turns_left PIPE seg saveptr) _ _ _ eq_refl).
    by rewrite to_visit_strtok_r.
  - by rewrite parse_line_loop_equation_2.
Qed.

Lemma parse_line_segments line :
  parse_line getenv line =
  match fields PIPE line with
  | [] => (None, "")
  | segs => parse_segments getenv segs zero_line
  end.
Proof.
  unfold parse_line. destruct (strtok_r PIPE line) as [[cmd|] saveptr] eqn:E.
  - rewrite parse_line_loop_segments. simpl.
    by apply strtok_r_Some in E as [_ ->].
  - by apply strtok_r_None in E as ->.
Qed.

End ParserTokens.

(** ** What the parser returns is well formed *)

Section ParserInvariants.

Variable getenv : string -> option string.

Lemma zero_command_inv : command_inv zero_command.
Proof. split; [by left|]. intros i Hi. simpl in Hi. lia. Qed.

Lemma grown_lookup (c : command_t) i :
  command_inv c → i < n_args c ∨ (i = n_args c ∧ n_args c ≠ 0) →
  resize (n_args c + 2) Garbage (args c) !! i = args c !! i.
Proof.
  intros [Hnull Hstr] Hi. apply lookup_resize; [lia|].
  apply lookup_lt_is_Some. destruct Hi as [Hi|[-> Hn]].
  - destruct (Hstr i Hi) as [s ->]. by eexists.
  - destruct Hnull as [? | ->]; [done|by eexists].
Qed.

Lemma push_arg_inv tmp (c : command_t) :
  n_args c + 2 ≤ length (args c) → args_are_strings c →
  wf_command (push_arg tmp c).
Proof.
  intros Hlen Hstr. unfold push_arg, wf_command, args_are_strings; simpl.
  split_and!.
  - lia.
  - apply list_lookup_insert_eq. rewrite length_insert. lia.
  - intros i Hi. rewrite list_lookup_insert_ne by lia.
    destruct (decide (i = n_args c)) as [->|Hne].
    + exists tmp. apply list_lookup_insert_eq. lia.
    + rewrite list_lookup_insert_ne by done. apply Hstr. lia.
Qed.

Lemma parse_token_inv tok c c' :
  command_inv c → parse_token getenv tok c = inl c' → command_inv c'.
Proof.
  intros Hinv. pose proof Hinv as [Hnull Hstr].
  assert (command_inv
            {| n_args := n_args c;
               args := resize (n_args c + 2) Garbage (args c);
               out_pathname := out_pathname c;
               in_pathname := in_pathname c |}
          ∧ ∀ o i, command_inv
            {| n_args := n_args c;
               args := resize (n_args c + 2) Garbage (args c);
               out_pathname := o; in_pathname := i |}) as [Hgrown Hredir].
  { assert (∀ o i, command_inv
            {| n_args := n_args c;
               args := resize (n_args c + 2) Garbage (args c);
               out_pathname := o; in_pathname := i |}) as H; [|by split].
    intros o i. split; simpl.
    - destruct (decide (n_args c = 0)) as [?|Hn]; [by left|right].
      rewrite grown_lookup by auto. by destruct Hnull.
    - intros j Hj; simpl in *. rewrite grown_lookup by auto. by apply Hstr. }
  assert (wf_command (push_arg (expand getenv tok)
            {| n_args := n_args c;
               args := resize (n_args c + 2) Garbage (args c);
               out_pathname := out_pathname c;
               in_pathname := in_pathname c |})) as Hpush.
  { apply push_arg_inv; simpl; [by rewrite length_resize|apply Hgrown]. }
  assert (∀ d, wf_command d → command_inv d) as Hweak.
  { intros d (?&?&?). split; [by right|done]. }
  unfold parse_token.
  destruct tok as [|a path]; [intros [= <-]; by apply Hweak|].
  destruct (decide (a = "<"%char)) as [->|Hlt].
  { destruct (in_pathname c); [done|]. destruct path; [done|].
    intros [= <-]. apply Hredir. }
  destruct (decide (a = ">"%char)) as [->|Hgt].
  { destruct (out_pathname c); [done|]. destruct path; [done|].
    intros [= <-]. apply Hredir. }
  intros H. assert (c' = push_arg (expand getenv (String a path))
            {| n_args := n_args c;
               args := resize (n_args c + 2) Garbage (args c);
               out_pathname := out_pathname c;
               in_pathname := in_pathname c |}) as ->; [|by apply Hweak].
  destruct a as [[] [] [] [] [] [] [] []]; try congruence.
Qed.

Lemma parse_tokens_wf toks c c' err :
  command_inv c → parse_tokens getenv toks c = (Some c', err) →
  wf_command c' ∧ err = "".
Proof.
  revert c. induction toks as [|tok toks IH]; intros c Hinv; simpl.
  - destruct (decide (n_args c = 0)) as [?|Hn]; [done|].
    intros [= <- <-]. destruct Hinv as [[?|?] ?]; [done|].
    split; [|done]. split_and!; [lia|done..].
  - destruct (parse_token getenv tok c) as [c1|msg] eqn:E; [|done].
    apply IH. by eapply parse_token_inv.
Qed.

Lemma parse_cmd_wf cmdstr c err :
  parse_cmd getenv cmdstr = (Some c, err) → wf_command c ∧ err = "".
Proof.
  rewrite parse_cmd_tokens. apply parse_tokens_wf, zero_command_inv.
Qed.

(** A segment that parses holds a token. *)
Lemma parse_cmd_has_token cmdstr c err :
  parse_cmd getenv cmdstr = (Some c, err) → has_token cmdstr = true.
Proof.
  rewrite parse_cmd_tokens. unfold has_token.
  by destruct (fields BLANKS cmdstr).
Qed.

Lemma push_command_inv c l :
  wf_command c → line_inv l → line_inv (push_command c l).
Proof.
  intros Hc [Hlen Hall]. unfold push_command. split; simpl.
  - rewrite length_app, length_take. simpl. lia.
  - apply Forall_app. split; [by apply Forall_take|by apply Forall_singleton].
Qed.

Lemma parse_segments_wf segs l l' err :
  line_inv l → parse_segments getenv segs l = (Some l', err) →
  line_inv l' ∧ err = "" ∧ n_commands l' = n_commands l + length segs
  ∧ Forall (fun seg => has_token seg = true) segs.
Proof.
  revert l err. induction segs as [|seg segs IH]; intros l err Hinv; simpl.
  - intros [= <- <-]. split_and!; [done|done|lia|done].
  - destruct (parse_cmd getenv seg) as [[c|] e] eqn:E; [|done].
    pose proof (parse_cmd_has_token _ _ _ E) as Htok.
    apply parse_cmd_wf in E as [Hc ->].
    destruct (parse_segments getenv segs (push_command c l)) as [r e] eqn:Er.
    simpl. intros [= -> <-].
    apply IH in Er as (?&->&Hn&?); [|by apply push_command_inv].
    split_and!; [done|done|simpl in Hn; lia|by constructor].
Qed.

Lemma zero_line_inv : line_inv zero_line.
Proof. by split. Qed.

Lemma parse_line_wf line l err :
  parse_line getenv line = (Some l, err) →
  wf_line l ∧ err = "" ∧ n_commands l = length (fields PIPE line)
  ∧ Forall (fun seg => has_token seg = true) (fields PIPE line).
Proof.
  rewrite parse_line_segments.
  destruct (fields PIPE line) as [|seg segs] eqn:E; [done|].
  intros H. apply parse_segments_wf in H as (?&?&Hn&?); [|apply zero_line_inv].
  simpl in Hn. split_and!; try done. split; [lia|done].
Qed.

End ParserInvariants.

(** ** The validators *)

Lemma is_last_spec l i :
  1 ≤ n_commands l → is_last l i = true ↔ i = n_commands l - 1.
Proof.
  intros Hn. unfold is_last. rewrite bool_decide_eq_true. lia.
Qed.

Lemma check_redirections_loop_spec l todo i :
  wf_line l → i + todo = n_commands l →
  ∃ rv msg, check_redirections_loop l todo i = Some (rv, msg) ∧
    (rv = CHECK_OK → msg = "" ∧
       ∀ j c, i ≤ j → commands l !! j = Some c →
         ¬ misplaced_input j c ∧ ¬ misplaced_output l j c) ∧
    (rv = CHECK_FAILED → ∃ j c, i ≤ j ∧ commands l !! j = Some c ∧
       (∀ k c', i ≤ k < j → commands l !! k = Some c' →
          ¬ misplaced_input k c' ∧ ¬ misplaced_output l k c') ∧
       ((misplaced_input j c ∧ msg = MSG_IN_NOT_FIRST) ∨
        (¬ misplaced_input j c ∧ misplaced_output l j c
         ∧ msg = MSG_OUT_NOT_LAST))).
Proof.
  intros (Hn & Hlen & Hall). revert i.
  induction todo as [|todo IH]; intros i Hi; simpl.
  - exists CHECK_OK, "". split_and!; [done| |done].
    intros _. split; [done|]. intros j c Hj Hc.
    apply lookup_lt_Some in Hc. lia.
  - unfold command_at.
    destruct (commands l !! i) as [c|] eqn:Hc; simpl;
      [|apply lookup_ge_None in Hc; lia].
    assert (is_last l i = true ↔ i = n_commands l - 1) as Hlast
      by (apply is_last_spec; lia).
    destruct (decide (misplaced_input i c)) as [Hin|Hin].
    { exists CHECK_FAILED, MSG_IN_NOT_FIRST.
      destruct Hin as [Hp H0].
      rewrite (bool_decide_eq_true_2 (is_Some (in_pathname c)))
        by (by apply not_eq_None_Some).
      rewrite (bool_decide_eq_false_2 (i = 0)) by done. simpl.
      split_and!; [done|done|]. intros _. exists i, c.
      split_and!; [lia|done| |by left]. intros; lia. }
    assert (bool_decide (is_Some (in_pathname c)) && negb (bool_decide (i = 0))
            = false) as ->.
    { apply andb_false_iff. destruct (decide (i = 0)) as [->|]; [by right|].
      left. apply bool_decide_eq_false. intros Hs. apply Hin.
      split; [by apply not_eq_None_Some|done]. }
    destruct (decide (misplaced_output l i c)) as [Hout|Hout].
    { exists CHECK_FAILED, MSG_OUT_NOT_LAST.
      destruct Hout as [Hp H0].
      rewrite bool_decide_eq_true_2 by (by apply not_eq_None_Some).
      destruct (is_last l i) eqn:El; [exfalso; apply H0; by apply Hlast|].
      simpl.
      split_and!; [done|done|]. intros _. exists i, c.
      split_and!; [lia|done| |right; by split_and!]. intros; lia. }
    assert (bool_decide (is_Some (out_pathname c)) && negb (is_last l i)
            = false) as ->.
    { apply andb_false_iff. destruct (is_last l i) eqn:El; [by right|].
      left. apply bool_decide_eq_false. intros Hs. apply Hout.
      split; [by apply not_eq_None_Some|]. intros ?. apply Hlast in H.
      congruence. }
    destruct (IH (S i)) as (rv & msg & -> & Hok & Hfail); [lia|].
    exists rv, msg. split_and!; [done| |].
    + intros Hrv. destruct (Hok Hrv) as [-> Hall']. split; [done|].
      intros j c' Hj Hc'. destruct (decide (j = i)) as [->|].
      * assert (c' = c) as -> by congruence. by split.
      * apply Hall'; [lia|done].
    + intros Hrv. destruct (Hfail Hrv) as (j & c' & Hj & Hc' & Hbefore & Hmsg).
      exists j, c'. split_and!; [lia|done| |done].
      intros k c'' Hk Hc''. destruct (decide (k = i)) as [->|].
      * assert (c'' = c) as -> by congruence. by split.
      * apply Hbefore; [lia|done].
Qed.

Lemma wf_line_lookup l i c :
  wf_line l → commands l !! i = Some c → wf_command c.
Proof.
  intros (_ & _ & Hall) Hc. rewrite Forall_lookup in Hall. by eapply Hall.
Qed.

Lemma wf_line_first l : wf_line l → ∃ c0, commands l !! 0 = Some c0.
Proof.
  intros (Hn & Hlen & _). apply lookup_lt_is_Some. lia.
Qed.

Lemma arg_at_defined c i :
  wf_command c → i < n_args c → ∃ s, arg_at c i = Some s.
Proof.
  intros (_ & _ & Hstr) Hi. destruct (Hstr i Hi) as [s Hs].
  exists s. unfold arg_at. by rewrite Hs.
Qed.

Lemma check_cd_loop_spec l todo i :
  wf_line l → i + todo = n_commands l →
  (check_cd_loop l todo i = Some None ∧
     ∀ j c, i ≤ j → commands l !! j = Some c → ¬ is_cd c) ∨
  (check_cd_loop l todo i = Some (Some MSG_CD_IN_PIPE) ∧
     ∃ j c, i ≤ j ∧ commands l !! j = Some c ∧ is_cd c).
Proof.
  intros Hwf. pose proof Hwf as (Hn & Hlen & Hall). revert i.
  induction todo as [|todo IH]; intros i Hi; simpl.
  - left. split; [done|]. intros j c Hj Hc.
    apply lookup_lt_Some in Hc. lia.
  - unfold command_at.
    destruct (commands l !! i) as [c|] eqn:Hc; simpl;
      [|apply lookup_ge_None in Hc; lia].
    destruct (arg_at_defined c 0) as [name Hname];
      [by eapply wf_line_lookup|destruct (wf_line_lookup _ _ _ Hwf Hc); lia|].
    rewrite Hname. simpl. case_bool_decide as Hcd.
    + right. split; [done|]. exists i, c. split_and!; [lia|done|].
      unfold is_cd. by rewrite Hname, Hcd.
    + destruct (IH (S i)) as [[-> Hno]|[-> (j & c' & Hj & Hc' & Hcd')]]; [lia| |].
      * left. split; [done|]. intros j c' Hj Hc'.
        destruct (decide (j = i)) as [->|]; [|apply (Hno j); [lia|done]].
        assert (c' = c) as -> by congruence. unfold is_cd.
        rewrite Hname. unfold CD in Hcd. congruence.
      * right. split; [done|]. exists j, c'. split_and!; [lia|done..].
Qed.

(** [check_cd] on a well-formed line: it never reads out of bounds, and its
    verdict and message are those of the first test that fails. *)
Lemma check_cd_spec l :
  wf_line l →
  ∃ c0 rv msg, commands l !! 0 = Some c0 ∧ check_cd l = Some (rv, msg) ∧
    ((∃ j c, j ≠ 0 ∧ commands l !! j = Some c ∧ is_cd c) →
       rv = CHECK_FAILED ∧ msg = MSG_CD_IN_PIPE) ∧
    ((∀ j c, j ≠ 0 → commands l !! j = Some c → ¬ is_cd c) →
       (¬ is_cd c0 → rv = CHECK_OK ∧ msg = "") ∧
       (is_cd c0 →
          (rv = CHECK_OK ↔ cd_alone l c0) ∧
          (rv = CHECK_OK → msg = "") ∧
          (1 < n_commands l → msg = MSG_CD_NOT_ALONE) ∧
          (n_commands l = 1 → in_pathname c0 ≠ None → msg = MSG_CD_IN) ∧
          (n_commands l = 1 → in_pathname c0 = None →
             out_pathname c0 ≠ None → msg = MSG_CD_OUT) ∧
          (n_commands l = 1 → in_pathname c0 = None →
             out_pathname c0 = None → n_args c0 ≠ 2 → msg = MSG_CD_ARGS))).
Proof.
  intros Hwf. destruct (wf_line_first l Hwf) as [c0 Hc0]. exists c0.
  pose proof Hwf as (Hn & Hlen & Hall).
  destruct (arg_at_defined c0 0) as [name Hname];
    [by eapply wf_line_lookup|destruct (wf_line_lookup _ _ _ Hwf Hc0); lia|].
  unfold check_cd.
  destruct (check_cd_loop_spec l (n_commands l - 1) 1 Hwf)
    as [[-> Hno]|[-> (j & c & Hj & Hc & Hcd)]]; [lia| |]; simpl.
  - unfold command_at. rewrite Hc0. simpl. rewrite Hname. simpl.
    assert (is_cd c0 ↔ name = CD) as Hiff.
    { unfold is_cd, CD. rewrite Hname. split; congruence. }
    case_bool_decide as Hcd; simpl.
    2:{ exists CHECK_OK, "". split_and!; [done|done| |].
        - intros (j & c & Hj & Hc & Hcd'). destruct (Hno j c); [lia|done..].
        - intros _. split; [done|]. intros ?. by destruct Hcd; apply Hiff. }
    assert (is_cd c0) as Hcd0 by by apply Hiff.
    unfold cd_alone.
    repeat case_bool_decide; simpl; eexists _, _;
      (split_and!; [done|done| |]);
      try (intros (j & c & Hj & Hc & Hcd'); destruct (Hno j c); [lia|done..]);
      intros _; (split; [done|]); intros _;
      repeat match goal with
        | H : ¬ is_Some _ |- _ => apply eq_None_not_Some in H
        | H : is_Some _ |- _ => apply not_eq_None_Some in H
        end;
      split_and!; try split; intros; destruct_and?; split_and?;
      first [done|lia].
  - exists CHECK_FAILED, MSG_CD_IN_PIPE. split_and!; [done|done|done|].
    intros Hno. destruct (Hno j c); [lia|done..].
Qed.

(** ** Lines and their segments *)

Lemma split_app_delim delim s1 a s2 :
  strchr delim a = true →
  split delim (s1 +:+ String a s2) = (split delim s1 ++ split delim s2)%list.
Proof.
  intros Ha. induction s1 as [|b s1 IH].
  - change ("" +:+ String a s2) with (String a s2).
    by rewrite split_cons, Ha.
  - change (String b s1 +:+ String a s2) with (String b (s1 +:+ String a s2)).
    rewrite !split_cons, IH. destruct (strchr delim b); [done|].
    destruct (split delim s1) as [|seg segs] eqn:E; [|done].
    unfold split in E. by destruct (split_first delim s1).
Qed.

Lemma fields_app_delim delim s1 a s2 :
  strchr delim a = true →
  fields delim (s1 +:+ String a s2) = (fields delim s1 ++ fields delim s2)%list.
Proof.
  intros Ha. unfold fields. by rewrite split_app_delim, filter_app.
Qed.

Lemma fields_delim_head delim a s :
  strchr delim a = true → fields delim (String a s) = fields delim s.
Proof.
  intros Ha. unfold fields. rewrite split_cons, Ha.
  by rewrite filter_cons_False by (intros ?; done).
Qed.

Lemma fields_pipes n : fields PIPE (pipes n) = [].
Proof.
  induction n as [|n IH]; [done|]. simpl. by rewrite fields_delim_head.
Qed.

Lemma filter_has_token segs :
  Forall (fun seg => has_token seg = true) (filter (fun seg => seg ≠ "") segs) →
  filter (fun seg => has_token seg = true) segs
  = filter (fun seg => seg ≠ "") segs.
Proof.
  induction segs as [|seg segs IH]; [done|].
  destruct (decide (seg = "")) as [->|Hne].
  - rewrite !filter_cons_False by (by intros ?). apply IH.
  - rewrite (filter_cons_True (fun seg => seg ≠ "")) by done.
    intros [Hseg Hrest]%Forall_cons.
    rewrite filter_cons_True by done. f_equal. by apply IH.
Qed.

Lemma execute_no_pipeline os line w :
  parse_line (os_getenv os) line = (None, "") →
  execute os line w = (Ok tt, w).
Proof. unfold execute. by intros ->. Qed.

(** C8: an empty line yields no pipeline and no diagnostic, and the shell
    then does nothing at all: it neither validates nor runs anything. *)
Theorem empty_line_is_skipped (os : os_t) (w : world) :
  parse_line (os_getenv os) "" = (None, "") ∧ execute os "" w = (Ok tt, w).
Proof. split; [done|]. by apply execute_no_pipeline. Qed.

(** C6: the number of commands of a line that parses is the number of its
    pipe-delimited segments that hold at least one token. *)
Theorem parsed_commands_count (getenv : string → option string)
    (line : string) (l : line_t) (err : string) :
  parse_line getenv line = (Some l, err) →
  n_commands l = token_segments line.
Proof.
  intros (_ & _ & -> & Htok)%parse_line_wf.
  unfold token_segments, segments. by rewrite filter_has_token.
Qed.

Lemma parse_line_fields getenv line1 line2 :
  fields PIPE line1 = fields PIPE line2 →
  parse_line getenv line1 = parse_line getenv line2.
Proof. intros H. by rewrite !parse_line_segments, H. Qed.

(** C10: [strtok_r] skips runs of delimiters, so adjacent pipes count as
    one: a line of pipes alone parses like the empty line, to no pipeline
    and no diagnostic, and the shell does nothing; doubling a pipe anywhere
    in a line changes nothing; and "a||b" parses into two commands. *)
Theorem adjacent_pipes_collapse (os : os_t) (n : nat) (s1 s2 : string)
    (w : world) :
  parse_line (os_getenv os) (pipes n) = (None, "")
  ∧ execute os (pipes n) w = (Ok tt, w)
  ∧ parse_line (os_getenv os) (s1 +:+ "||" +:+ s2)
    = parse_line (os_getenv os) (s1 +:+ "|" +:+ s2)
  ∧ parse_line (os_getenv os) "a||b"
    = (Some {| n_commands := 2;
               commands :=
                 [ {| n_args := 1; args := [Ptr "a"; Null];
                      out_pathname := None; in_pathname := None |};
                   {| n_args := 1; args := [Ptr "b"; Null];
                      out_pathname := None; in_pathname := None |} ] |},
       "").
Proof.
  assert (parse_line (os_getenv os) (pipes n) = (None, "")) as Hpipes.
  { by rewrite parse_line_segments, fields_pipes. }
  split_and!; [done|by apply execute_no_pipeline| |by vm_compute].
  apply parse_line_fields.
  change (s1 +:+ "||" +:+ s2) with (s1 +:+ String "|"%char ("|" +:+ s2)).
  change (s1 +:+ "|" +:+ s2) with (s1 +:+ String "|"%char s2).
  rewrite !fields_app_delim by done.
  change ("|" +:+ s2) with (String "|"%char s2).
  by rewrite fields_delim_head.
Qed.

(** ** A line that fails a check is dropped *)

Lemma written_nonempty stream text w :
  text ≠ "" → written stream text w = log (stream text) w.
Proof. intros H. unfold written. by destruct (decide (text = "")). Qed.

Lemma execute_parsed os line l err w :
  parse_line (os_getenv os) line = (Some l, err) →
  execute os line w =
  match check_redirections l with
  | None => (Stop Undefined, w)
  | Some (CHECK_FAILED, msg) => (Ok tt, written Stderr msg w)
  | Some (CHECK_OK, msg) =>
      match check_cd l with
      | None => (Stop Undefined, written Stderr msg w)
      | Some (CHECK_FAILED, msg') =>
          (Ok tt, written Stderr msg' (written Stderr msg w))
      | Some (CHECK_OK, msg') =>
          execute_line os l (written Stderr msg' (written Stderr msg w))
      end
  end.
Proof.
  intros H. unfold execute. rewrite H.
  apply parse_line_wf in H as (_ & -> & _).
  destruct (check_redirections l) as [[[] msg]|]; [|done..].
  by destruct (check_cd l) as [[[] msg']|].
Qed.

Lemma line_of_nonempty msg : line_of msg ≠ "".
Proof. unfold line_of. by destruct msg. Qed.

(** C3: on a parsed pipeline [check_redirections] answers [CHECK_OK]
    exactly when no command but the first has an input redirection and no
    command but the last has an output redirection; otherwise it prints the
    message of the first misplaced redirection it meets (the input one
    first, within a command), and [execute] drops the line: it prints that
    message and does nothing else, so no process is spawned. *)
Theorem redirection_placement_check (os : os_t) (line : string) (l : line_t)
    (err : string) (w : world) :
  parse_line (os_getenv os) line = (Some l, err) →
  ∃ rv msg, check_redirections l = Some (rv, msg) ∧
    (rv = CHECK_OK ↔
       ∀ i c, commands l !! i = Some c →
         (i ≠ 0 → in_pathname c = None) ∧
         (i ≠ n_commands l - 1 → out_pathname c = None)) ∧
    (rv = CHECK_OK → msg = "") ∧
    (rv = CHECK_FAILED →
       (∃ i c, commands l !! i = Some c ∧
          (∀ k c', k < i → commands l !! k = Some c' →
             ¬ misplaced_input k c' ∧ ¬ misplaced_output l k c') ∧
          ((misplaced_input i c ∧
            msg = line_of "Parsing error: cannot have input-redirection except in the first command") ∨
           (¬ misplaced_input i c ∧ misplaced_output l i c ∧
            msg = line_of "Parsing error: cannot have output-redirection except in the last command")))
       ∧ execute os line w = (Ok tt, log (Stderr msg) w)).
Proof.
  intros Hparse. pose proof (execute_parsed _ _ _ _ w Hparse) as Hexec.
  apply parse_line_wf in Hparse as (Hwf & _).
  destruct (check_redirections_loop_spec l (n_commands l) 0 Hwf)
    as (rv & msg & Hrv & Hok & Hfail); [lia|].
  exists rv, msg. fold (check_redirections l) in Hrv. rewrite Hrv in Hexec.
  split_and!; [done| |by intros [-> _]%Hok|].
  - split.
    + intros [_ Hall]%Hok i c Hc.
      destruct (Hall i c) as [Hin Hout]; [lia|done|].
      split; intros Hi.
      * destruct (in_pathname c) eqn:E; [|done]. destruct Hin.
        split; [by rewrite E|done].
      * destruct (out_pathname c) eqn:E; [|done]. destruct Hout.
        split; [by rewrite E|done].
    + intros Hall. destruct rv; [done|].
      destruct (Hfail eq_refl) as (j & c & _ & Hc & _ & Hbad).
      destruct (Hall j c Hc) as [Hin Hout].
      destruct Hbad as [[[Hp Hj] _]|(_ & [Hp Hj] & _)]; [by destruct Hp; auto..].
  - intros ->. destruct (Hfail eq_refl) as (j & c & _ & Hc & Hbefore & Hbad).
    split.
    + exists j, c. split_and!; [done| |done].
      intros k c' Hk Hc'. apply Hbefore; [lia|done].
    + rewrite Hexec. f_equal. apply written_nonempty.
      destruct Hbad as [[_ ->]|(_ & _ & ->)]; apply line_of_nonempty.
Qed.

(** C4: on a parsed pipeline [check_cd] fails with "cannot have CD in pipe"
    whenever a command other than the first is [cd]; when the first command
    is [cd] it answers [CHECK_OK] exactly when that command is alone, has no
    redirection and has two argument tokens, and a [cd] that is alone and
    not redirected but has another number of tokens gets "more than one
    argument".  So "a | cd /tmp" and "cd a b" are rejected with these two
    messages, and [execute] prints them and does nothing else. *)
Theorem builtin_placement_check (os : os_t) (line : string) (l : line_t)
    (err : string) (w : world) :
  parse_line (os_getenv os) line = (Some l, err) →
  (∃ c0 rv msg, commands l !! 0 = Some c0 ∧ check_cd l = Some (rv, msg) ∧
     ((∃ i c, i ≠ 0 ∧ commands l !! i = Some c ∧ arg_at c 0 = Some "cd") →
        rv = CHECK_FAILED ∧
        msg = line_of "Parsing error: cannot have CD in pipe") ∧
     (arg_at c0 0 = Some "cd" →
        (rv = CHECK_OK ↔
           n_commands l = 1 ∧ in_pathname c0 = None
           ∧ out_pathname c0 = None ∧ n_args c0 = 2) ∧
        (n_commands l = 1 → in_pathname c0 = None → out_pathname c0 = None →
         n_args c0 ≠ 2 →
         msg = line_of "Parsing error: cannot have more than one argument with CD")))
  ∧ (∃ l1, parse_line (os_getenv os) "a | cd /tmp" = (Some l1, "")
       ∧ check_cd l1
         = Some (CHECK_FAILED, line_of "Parsing error: cannot have CD in pipe")
       ∧ execute os "a | cd /tmp" w
         = (Ok tt,
            log (Stderr (line_of "Parsing error: cannot have CD in pipe")) w))
  ∧ (∃ l2, parse_line (os_getenv os) "cd a b" = (Some l2, "")
       ∧ check_cd l2
         = Some (CHECK_FAILED,
                 line_of "Parsing error: cannot have more than one argument with CD")
       ∧ execute os "cd a b" w
         = (Ok tt,
            log (Stderr (line_of "Parsing error: cannot have more than one argument with CD")) w)).
Proof.
  intros (Hwf & _)%parse_line_wf. split_and!.
  - destruct (check_cd_spec l Hwf)
      as (c0 & rv & msg & Hc0 & Hrv & Hpipe & Hfirst).
    exists c0, rv, msg. split_and!; [done..|].
    intros Hcd0.
    destruct (check_cd_loop_spec l (n_commands l - 1) 1 Hwf)
      as [[_ Hno]|[_ (j & c & Hj & Hc & Hcd)]];
      [destruct Hwf; lia| |].
    + destruct Hfirst as [_ Hfirst].
      { intros j c Hj Hc. apply (Hno j); [lia|done]. }
      destruct (Hfirst Hcd0) as (Hiff & _ & _ & _ & _ & Hargs). by split.
    + destruct Hpipe as [-> _]; [exists j, c; split_and!; [lia|done..]|].
      apply lookup_lt_Some in Hc. destruct Hwf as (_ & Hlen & _).
      split; [split; [done|]|]; intros; lia.
  - eexists. split_and!; by vm_compute.
  - eexists. split_and!; by vm_compute.
Qed.


(** ** The supervisor's loop *)

Section Supervisor.

Variable os : os_t.

Lemma wait_for_children_loop_clause status w r
    (Hcall : sys_waitpid os status w = r) :
  wait_for_children_loop_unfold_clause_1 os status w (exist _ r Hcall) =
  let '(pid, status', w') := r in
  if decide (0 < pid)%Z
  then wait_for_children_loop os status'
         (written Stdout (report_child os pid status') w')
  else (Ok tt, w').
Proof.
  destruct r as [[pid status'] w']. simpl. by destruct (decide (0 < pid)%Z).
Qed.

Lemma wait_for_children_loop_step status w :
  wait_for_children_loop os status w =
  let '(pid, status', w') := sys_waitpid os status w in
  if decide (0 < pid)%Z
  then wait_for_children_loop os status'
         (written Stdout (report_child os pid status') w')
  else (Ok tt, w').
Proof.
  rewrite wait_for_children_loop_equation_1. unfold inspect.
  apply wait_for_children_loop_clause.
Qed.

Lemma wait_for_children_loop_returns status w :
  ∃ w', wait_for_children_loop os status w = (Ok tt, w').
Proof.
  remember (length (w_children w)) as n eqn:Hn. revert status w Hn.
  induction (lt_wf n) as [n _ IH]. intros status w ->.
  rewrite wait_for_children_loop_step.
  destruct (sys_waitpid os status w) as [[pid status'] w'] eqn:Hcall.
  destruct (decide (0 < pid)%Z) as [Hpid|Hpid]; [|by eexists].
  eapply IH; [|done]. apply sys_waitpid_fewer in Hcall; [|done].
  unfold written. by destruct (decide _).
Qed.

Lemma wait_for_children_loop_spec status w :
  Forall (fun pid => 0 < pid)%Z (w_children w) →
  wait_for_children_loop os status w =
  (Ok tt,
   {| w_cwd := w_cwd w; w_fds := w_fds w; w_children := [];
      w_next_pid := w_next_pid w;
      w_trace := w_trace w ++ concat (turn_events os <$> w_children w) |}).
Proof.
  remember (length (w_children w)) as n eqn:Hn. revert status w Hn.
  induction (lt_wf n) as [n _ IH]. intros status w -> Hpos.
  rewrite wait_for_children_loop_step. unfold sys_waitpid.
  destruct w as [cwd fds [|pid rest] next trace]; simpl in *.
  { by rewrite app_nil_r. }
  apply Forall_cons in Hpos as [Hpid Hrest].
  destruct (decide (0 < pid)%Z); [|done].
  unfold written.
  destruct (decide (report_child os pid (os_status os pid) = "")) as [E|E].
  - rewrite (IH (length rest)) by (simpl; try lia; done). simpl.
    by rewrite <- app_assoc.
  - rewrite (IH (length rest)) by (simpl; try lia; done). simpl.
    by rewrite <- !app_assoc.
Qed.

Lemma wait_for_children_no_child w :
  w_children w = [] → wait_for_children os w = (Ok tt, w).
Proof.
  intros H. unfold wait_for_children.
  rewrite wait_for_children_loop_step. unfold sys_waitpid. by rewrite H.
Qed.

Lemma WIFSIGNALED_not_exited status :
  WIFSIGNALED status = true → WIFEXITED status = false.
Proof.
  unfold WIFSIGNALED, WIFEXITED, WTERMSIG. intros H.
  apply bool_decide_eq_false. intros E. by rewrite E in H.
Qed.

(** C5: what the supervisor prints for a child that ended: the exit
    message when it exited with a status that is not zero, the signal
    message when a signal ended it, nothing when it exited with status zero.
    The loop waits for every child in turn, prints these reports and nothing
    else, and returns when [waitpid] finds no child left; it never stops the
    shell. *)
Theorem supervisor_reports (pid status : Z) (w : world) :
  (WIFEXITED status = true → WEXITSTATUS status ≠ 0%Z →
     report_child os pid status =
     line_of ("Child with PID " +:+ pretty pid +:+ " exited with status "
              +:+ pretty (WEXITSTATUS status) +:+ "."))
  ∧ (WIFSIGNALED status = true →
     report_child os pid status =
     line_of ("Child with PID " +:+ pretty pid +:+ " was killed by signal "
              +:+ pretty (WTERMSIG status) +:+ " ("
              +:+ os_strsignal os (WTERMSIG status) +:+ ")."))
  ∧ (WIFEXITED status = true → WEXITSTATUS status = 0%Z →
     report_child os pid status = "")
  ∧ (Forall (fun pid => 0 < pid)%Z (w_children w) →
     wait_for_children os w =
     (Ok tt,
      {| w_cwd := w_cwd w; w_fds := w_fds w; w_children := [];
         w_next_pid := w_next_pid w;
         w_trace := w_trace w ++ concat (turn_events os <$> w_children w) |}))
  ∧ (w_children w = [] → wait_for_children os w = (Ok tt, w))
  ∧ (∃ w', wait_for_children os w = (Ok tt, w')).
Proof.
  split_and!.
  - intros Hexit Hcode. unfold report_child. rewrite Hexit.
    by rewrite bool_decide_eq_false_2.
  - intros Hsig. unfold report_child.
    by rewrite (WIFSIGNALED_not_exited _ Hsig), Hsig.
  - intros Hexit Hcode. unfold report_child. rewrite Hexit.
    by rewrite bool_decide_eq_true_2.
  - apply wait_for_children_loop_spec.
  - apply wait_for_children_no_child.
  - apply wait_for_children_loop_returns.
Qed.

End Supervisor.

(** ** The launcher reads within bounds *)

Section Bounds.

Variable os : os_t.

Lemma never_undefined_bind {A B} (m : M A) (f : A → M B) :
  never_undefined m → (∀ a, never_undefined (f a)) →
  never_undefined (m ≫= f).
Proof.
  intros Hm Hf w. unfold mbind, M_bind. specialize (Hm w).
  destruct (m w) as [[a|why] w']; [apply Hf|].
  simpl in *. intros [= ->]. by apply Hm.
Qed.

Lemma never_undefined_ret {A} (a : A) : never_undefined (mret a).
Proof. by intros w. Qed.

Lemma never_undefined_defined {A} (a : A) :
  never_undefined (defined (Some a)).
Proof. by intros w. Qed.

Lemma never_undefined_perror msg : never_undefined (perror msg).
Proof. intros w. by cbn. Qed.

Lemma never_undefined_fatal {A} msg : never_undefined (@fatal_errno A msg).
Proof. intros w. by cbn. Qed.

Lemma never_undefined_assert b : never_undefined (assert b).
Proof. intros w. by destruct b. Qed.

Lemma never_undefined_sys_open path writing :
  never_undefined (sys_open os path writing).
Proof. intros w. unfold sys_open. by destruct (_ && _). Qed.

Lemma never_undefined_sys_pipe : never_undefined (sys_pipe os).
Proof. intros w. unfold sys_pipe. by case_bool_decide. Qed.

Lemma never_undefined_sys_cloexec fd : never_undefined (sys_cloexec fd).
Proof. intros w. unfold sys_cloexec. by destruct (decide _). Qed.

Lemma never_undefined_sys_close fd : never_undefined (sys_close fd).
Proof. intros w. unfold sys_close. by destruct (decide _). Qed.

Lemma never_undefined_sys_fork child : never_undefined (sys_fork os child).
Proof. intros w. unfold sys_fork. by case_bool_decide. Qed.

Lemma never_undefined_sys_chdir dir : never_undefined (sys_chdir os dir).
Proof. intros w. unfold sys_chdir. by destruct (os_chdir _ _ _). Qed.

Lemma never_undefined_wait : never_undefined (wait_for_children os).
Proof.
  intros w. unfold wait_for_children.
  by destruct (wait_for_children_loop_returns os 0%Z w) as [w' ->].
Qed.

(** The steps of a run are checked one after the other: a bind splits the
    goal, a test or an optional result is taken by cases, and the lemmas on
    the system calls close what is left. *)
Create HintDb bounds discriminated.

#[local] Hint Resolve never_undefined_ret never_undefined_defined
  never_undefined_perror
  never_undefined_fatal never_undefined_assert never_undefined_sys_open
  never_undefined_sys_pipe never_undefined_sys_cloexec
  never_undefined_sys_close never_undefined_sys_fork
  never_undefined_sys_chdir never_undefined_wait : bounds.

Ltac in_bounds :=
  repeat first
    [ solve [auto with bounds]
    | apply never_undefined_bind; [|intros ?]
    | case_bool_decide
    | match goal with
      | |- never_undefined (match ?x with _ => _ end) => destruct x
      | |- never_undefined (if ?b then _ else _) => destruct b
      end ].

Lemma never_undefined_close_if_needed fd :
  never_undefined (close_if_needed fd).
Proof. unfold close_if_needed. in_bounds. Qed.

Lemma never_undefined_run_child c c_stdin c_stdout :
  never_undefined (run_child os c c_stdin c_stdout).
Proof. unfold run_child. in_bounds. Qed.

Lemma never_undefined_open_input c a next_stdin :
  never_undefined (open_input os c a next_stdin).
Proof. unfold open_input. in_bounds. Qed.

Lemma never_undefined_open_output l c a next_stdin :
  never_undefined (open_output os l c a next_stdin).
Proof. unfold open_output. in_bounds. Qed.

Lemma never_undefined_change_current_directory newdir :
  never_undefined (change_current_directory os newdir).
Proof. unfold change_current_directory. in_bounds. Qed.

#[local] Hint Resolve never_undefined_close_if_needed
  never_undefined_run_child never_undefined_open_input
  never_undefined_open_output never_undefined_change_current_directory
  : bounds.

Lemma execute_line_loop_in_bounds l todo a next_stdin :
  wf_line l → a + todo = n_commands l →
  never_undefined (execute_line_loop os l todo a next_stdin).
Proof.
  intros Hwf. pose proof Hwf as (Hn & Hlen & _). revert a next_stdin.
  induction todo as [|todo IH]; intros a next_stdin Ha; simpl.
  { auto with bounds. }
  unfold command_at. destruct (commands l !! a) as [c|] eqn:Hc;
    [|apply lookup_ge_None in Hc; lia].
  in_bounds. apply IH. lia.
Qed.

Lemma never_undefined_bind_ret {A B} (a : A) (f : A → M B) :
  never_undefined (f a) → never_undefined (mret a ≫= f).
Proof. intros Hf w. apply Hf. Qed.

Lemma execute_line_in_bounds l :
  wf_line l → never_undefined (execute_line os l).
Proof.
  intros Hwf. destruct (wf_line_first l Hwf) as [c0 Hc0].
  pose proof (wf_line_lookup _ _ _ Hwf Hc0) as Hwc.
  destruct (arg_at_defined c0 0 Hwc) as [name Hname];
    [destruct Hwc; lia|].
  unfold execute_line, command_at. rewrite Hc0.
  apply never_undefined_bind_ret. rewrite Hname.
  apply never_undefined_bind_ret. case_bool_decide.
  - destruct (bool_decide (n_commands l = 1) && bool_decide (n_args c0 = 2))
      eqn:E; [|by intros w].
    apply never_undefined_bind_ret.
    apply andb_true_iff in E as [_ Hargs%bool_decide_eq_true].
    destruct (arg_at_defined c0 1 Hwc) as [dir ->]; [lia|].
    apply never_undefined_bind_ret.
    apply never_undefined_change_current_directory.
  - apply execute_line_loop_in_bounds; [done|lia].
Qed.

End Bounds.

(** C9: a command that [parse_cmd] returns has at least one argument, its
    first [n_args] cells are strings and the cell at index [n_args] is the
    null pointer; a line that [parse_line] returns has at least one command,
    as many as [n_commands] says, all of them such commands.  So the first
    command and every first argument are there to read: neither validator
    and no run of [execute_line] reads out of bounds. *)
Theorem parser_results_well_formed (getenv : string → option string) :
  (∀ cmdstr c err, parse_cmd getenv cmdstr = (Some c, err) →
     1 ≤ n_args c ∧ args c !! n_args c = Some Null
     ∧ ∀ i, i < n_args c → ∃ s, args c !! i = Some (Ptr s))
  ∧ (∀ line l err, parse_line getenv line = (Some l, err) →
     1 ≤ n_commands l ∧ length (commands l) = n_commands l
     ∧ Forall wf_command (commands l)
     ∧ (∃ c0 name, command_at l 0 = Some c0 ∧ arg_at c0 0 = Some name)
     ∧ Forall (fun c => is_Some (arg_at c 0)) (commands l)
     ∧ is_Some (check_redirections l) ∧ is_Some (check_cd l)
     ∧ ∀ os, never_undefined (execute_line os l)).
Proof.
  split.
  - intros cmdstr c err H. by apply parse_cmd_wf in H as [? _].
  - intros line l err (Hwf & _)%parse_line_wf.
    pose proof Hwf as (Hn & Hlen & Hall).
    destruct (wf_line_first l Hwf) as [c0 Hc0].
    split_and!; [done..| | | | |].
    + destruct (arg_at_defined c0 0) as [name Hname];
        [by eapply wf_line_lookup|
         destruct (wf_line_lookup _ _ _ Hwf Hc0); lia|].
      by exists c0, name.
    + eapply Forall_impl; [done|]. intros c Hc.
      apply arg_at_defined; [done|destruct Hc; lia].
    + destruct (check_redirections_loop_spec l (n_commands l) 0 Hwf)
        as (rv & msg & Hrv & _); [lia|]. by eexists.
    + destruct (check_cd_spec l Hwf) as (? & rv & msg & _ & Hrv & _).
      by eexists.
    + intros os. by apply execute_line_in_bounds.
Qed.

(** ** The built-in runs in the shell *)

Lemma bind_ret {A B} (a : A) (f : A → M B) w : (mret a ≫= f) w = f a w.
Proof. done. Qed.

Lemma change_current_directory_spec os newdir w :
  change_current_directory os newdir w =
  (Ok tt,
   match os_chdir os (w_cwd w) newdir with
   | Some cwd' =>
       {| w_cwd := cwd'; w_fds := w_fds w; w_children := w_children w;
          w_next_pid := w_next_pid w;
          w_trace := w_trace w ++ [Chdir newdir 0] |}
   | None =>
       log (Perror "error in change directory") (log (Chdir newdir (-1)) w)
   end).
Proof.
  unfold change_current_directory, mbind, M_bind, sys_chdir.
  by destruct (os_chdir os (w_cwd w) newdir).
Qed.

(** C7: when the first command of a parsed line that passed both checks
    is [cd], it is the only command and has one operand, and [execute_line]
    (and so [execute]) only calls [chdir] on that operand and returns: the
    trace gains that call, and the [perror] line when it failed; no process
    is forked and none is waited for; on failure the working directory is
    the one before. *)
Theorem cd_runs_in_the_shell (os : os_t) (line : string) (l : line_t)
    (err msg msg' : string) (c0 : command_t) (w : world) :
  parse_line (os_getenv os) line = (Some l, err) →
  check_redirections l = Some (CHECK_OK, msg) →
  check_cd l = Some (CHECK_OK, msg') →
  commands l !! 0 = Some c0 → arg_at c0 0 = Some "cd" →
  ∃ newdir w',
    n_commands l = 1 ∧ arg_at c0 1 = Some newdir
    ∧ execute_line os l w = (Ok tt, w')
    ∧ execute os line w = (Ok tt, w')
    ∧ w' = match os_chdir os (w_cwd w) newdir with
           | Some cwd' =>
               {| w_cwd := cwd'; w_fds := w_fds w;
                  w_children := w_children w; w_next_pid := w_next_pid w;
                  w_trace := w_trace w ++ [Chdir newdir 0] |}
           | None =>
               log (Perror "error in change directory")
                 (log (Chdir newdir (-1)) w)
           end
    ∧ w_children w' = w_children w
    ∧ (os_chdir os (w_cwd w) newdir = None → w_cwd w' = w_cwd w).
Proof.
  intros Hparse Hredir Hcd Hc0 Hname.
  pose proof (execute_parsed _ _ _ _ w Hparse) as Hexec.
  rewrite Hredir, Hcd in Hexec.
  apply parse_line_wf in Hparse as (Hwf & _).
  destruct (check_redirections_loop_spec l (n_commands l) 0 Hwf)
    as (rv & m & Hrv & Hok & _); [lia|].
  fold (check_redirections l) in Hrv. rewrite Hredir in Hrv.
  injection Hrv as <- <-. destruct (Hok eq_refl) as [-> _].
  destruct (check_cd_spec l Hwf) as (c & rv & m & Hc & Hrv & Hpipe & Hfirst).
  rewrite Hcd in Hrv. injection Hrv as <- <-.
  assert (c = c0) as -> by congruence.
  destruct (check_cd_loop_spec l (n_commands l - 1) 1 Hwf)
    as [[_ Hno]|[_ (j & c & Hj & Hcj & Hcdj)]]; [destruct Hwf; lia| |].
  2:{ destruct Hpipe as [[=] _]. exists j, c. split_and!; [lia|done..]. }
  destruct Hfirst as [_ Hfirst].
  { intros j c Hj Hcj. apply (Hno j); [lia|done]. }
  destruct (Hfirst Hname) as (Hiff & Hmsg & _).
  rewrite (Hmsg eq_refl) in Hexec. cbn in Hexec.
  destruct Hiff as [(Hone & _ & _ & Hargs) _]; [done|].
  destruct (arg_at_defined c0 1) as [newdir Hdir];
    [by eapply wf_line_lookup|lia|].
  assert (∃ w', execute_line os l w = (Ok tt, w') ∧
            w' = match os_chdir os (w_cwd w) newdir with
                 | Some cwd' =>
                     {| w_cwd := cwd'; w_fds := w_fds w;
                        w_children := w_children w;
                        w_next_pid := w_next_pid w;
                        w_trace := w_trace w ++ [Chdir newdir 0] |}
                 | None =>
                     log (Perror "error in change directory")
                       (log (Chdir newdir (-1)) w)
                 end) as (w' & Hrun & Hw').
  { eexists. split; [|done]. unfold execute_line, command_at.
    rewrite Hc0. change (defined (Some c0)) with (mret (M:=M) c0).
    rewrite bind_ret, Hname.
    change (defined (Some "cd")) with (mret (M:=M) "cd").
    rewrite bind_ret, (bool_decide_eq_true_2 (CD = "cd")) by done.
    rewrite Hone, Hargs, Hdir.
    change (assert (bool_decide (1 = 1) && bool_decide (2 = 2)))
      with (mret (M:=M) tt).
    rewrite bind_ret. change (defined (Some newdir)) with (mret (M:=M) newdir).
    rewrite bind_ret. apply change_current_directory_spec. }
  exists newdir, w'. split_and!; [done|done|done|by rewrite Hexec|done| |].
  - rewrite Hw'. by destruct (os_chdir os (w_cwd w) newdir).
  - intros Hfail. by rewrite Hw', Hfail.
Qed.

(** ** A failed open ends the launch without a supervision pass *)

(** Whatever the launcher has spawned before, when it reaches a last
    command whose output file cannot be opened it records the failed open,
    prints the error and returns: the children in [w] stay as they are, not
    waited for. *)
Lemma execute_line_loop_output_failure os l todo a next_stdin w c path :
  command_at l a = Some c → in_pathname c = None →
  out_pathname c = Some path → is_last l a = true →
  os_writable os path = false →
  execute_line_loop os l (S todo) a next_stdin w =
  (Ok tt, log (Perror path) (log (Open path true (-1)) w)).
Proof.
  intros Hc Hin Hout Hlast Hopen. cbn [execute_line_loop]. rewrite Hc.
  change (defined (Some c)) with (mret (M:=M) c). rewrite bind_ret.
  unfold open_input. rewrite Hin, bind_ret.
  unfold open_output. rewrite Hout, Hlast.
  unfold mbind, M_bind, assert, sys_open, perror, emit. cbn.
  by rewrite Hopen.
Qed.

(** C2: on "a | b >/no/dir/out", where the output file cannot be opened,
    the launcher has forked the child for "a" (process 100) when the open
    for "b" fails; it prints the error and returns at once.  No further
    command is spawned, but [wait_for_children] is not called either: the
    trace holds no [Waited] event, process 100 is still among the children
    not waited for, and the read end of the pipe (descriptor 3) stays
    open in the shell.  The same line with an output file that opens runs
    the supervision pass over both children. *)
Theorem failed_open_skips_supervision :
  execute demo_os "a | b >/no/dir/out" demo_world =
  (Ok tt,
   {| w_cwd := "/"; w_fds := [3; 0; 1; 2]%Z; w_children := [100%Z];
      w_next_pid := 101%Z;
      w_trace :=
        [ Pipe 3 4; Cloexec 3; Cloexec 4;
          Fork 100 [Dup2 4 1; Close 4; Execvp (Some "a") [Ptr "a"; Null]];
          Closed 4 0;
          Open "/no/dir/out" true (-1);
          Perror "/no/dir/out" ] |})
  ∧ execute demo_os "a | b >out.txt" demo_world =
    (Ok tt,
     {| w_cwd := "/"; w_fds := [0; 1; 2]%Z; w_children := [];
        w_next_pid := 102%Z;
        w_trace :=
          [ Pipe 3 4; Cloexec 3; Cloexec 4;
            Fork 100 [Dup2 4 1; Close 4; Execvp (Some "a") [Ptr "a"; Null]];
            Closed 4 0;
            Open "out.txt" true 4;
            Fork 101 [Dup2 3 0; Close 3; Dup2 4 1; Close 4;
                      Execvp (Some "b") [Ptr "b"; Null; Garbage]];
            Closed 3 0; Closed 4 0;
            Waited 100 768;
            Stdout (line_of "Child with PID 100 exited with status 3.");
            Waited 101 9;
            Stdout (line_of "Child with PID 101 was killed by signal 9 (Killed).") ] |}).
Proof. split; by vm_compute. Qed.

(** ** Argument tokens and the environment *)

Section Arguments.

Variable getenv : string → option string.

Lemma split_no_delim delim tok :
  no_delim delim tok = true → split delim tok = [tok].
Proof.
  induction tok as [|a tok IH]; simpl; [done|].
  intros [Ha Htok]%andb_true_iff. rewrite split_cons.
  apply negb_true_iff in Ha. by rewrite Ha, IH.
Qed.

Lemma fields_plain_token tok :
  plain_token tok → fields BLANKS tok = [tok].
Proof.
  intros [Hhead Hblank]. unfold fields. rewrite split_no_delim by done.
  rewrite filter_cons_True; [done|]. by intros ->.
Qed.

Lemma fields_concat toks :
  Forall plain_token toks → fields BLANKS (String.concat " " toks) = toks.
Proof.
  induction toks as [|tok toks IH]; [done|].
  intros [Htok Htoks]%Forall_cons. destruct toks as [|tok' toks].
  - by apply fields_plain_token.
  - change (String.concat " " (tok :: tok' :: toks))
      with (tok +:+ String " "%char (String.concat " " (tok' :: toks))).
    rewrite fields_app_delim by done.
    by rewrite fields_plain_token, IH.
Qed.

Lemma parse_token_plain tok c :
  plain_token tok →
  parse_token getenv tok c =
  inl (push_arg (expand getenv tok)
         {| n_args := n_args c;
            args := resize (n_args c + 2) Garbage (args c);
            out_pathname := out_pathname c;
            in_pathname := in_pathname c |}).
Proof.
  intros [Hhead _]. destruct tok as [|a tok]; [done|].
  destruct Hhead as [Hlt Hgt]. unfold parse_token.
  destruct a as [[] [] [] [] [] [] [] []]; congruence.
Qed.

Lemma push_arg_args value (c : command_t) :
  n_args c ≤ length (args c) →
  args (push_arg value
          {| n_args := n_args c;
             args := resize (n_args c + 2) Garbage (args c);
             out_pathname := out_pathname c;
             in_pathname := in_pathname c |})
  = (take (n_args c) (args c) ++ [Ptr value; Null])%list.
Proof.
  intros Hlen. simpl. rewrite resize_add, resize_le by done.
  assert (length (take (n_args c) (args c)) = n_args c) as Htake
    by (rewrite length_take; lia).
  destruct (resize 2 Garbage (drop (n_args c) (args c)))
    as [|x [|y [|z rest]]] eqn:E;
    try (apply (f_equal length) in E; rewrite length_resize in E; done).
  rewrite (insert_app_r_alt _ _ (n_args c)) by lia.
  rewrite Htake, Nat.sub_diag. simpl.
  rewrite (insert_app_r_alt _ _ (S (n_args c))) by lia.
  rewrite Htake. by replace (S (n_args c) - n_args c) with 1 by lia.
Qed.

Lemma parse_tokens_plain tok toks c :
  Forall plain_token (tok :: toks) → n_args c ≤ length (args c) →
  parse_tokens getenv (tok :: toks) c =
  (Some {| n_args := n_args c + S (length toks);
           args := (take (n_args c) (args c)
                    ++ ((fun t => Ptr (expand getenv t)) <$> tok :: toks)
                    ++ [Null])%list;
           out_pathname := out_pathname c;
           in_pathname := in_pathname c |}, "").
Proof.
  revert tok c. induction toks as [|tok' toks IH]; intros tok c
    [Htok Htoks]%Forall_cons Hlen.
  - simpl. rewrite parse_token_plain by done.
    destruct (decide _) as [E|_]; [done|].
    do 2 f_equal. unfold push_arg at 1.
    rewrite <- (push_arg_args _ c Hlen). simpl. f_equal. lia.
  - change (parse_tokens getenv (tok :: tok' :: toks) c)
      with (match parse_token getenv tok c with
            | inl result' => parse_tokens getenv (tok' :: toks) result'
            | inr msg => (None, msg)
            end).
    rewrite parse_token_plain by done.
    rewrite IH; [|done|rewrite push_arg_args by done;
                        rewrite length_app, length_take; simpl; lia].
    rewrite push_arg_args by done. simpl n_args. simpl out_pathname.
    simpl in_pathname. do 2 f_equal.
    assert (take (S (n_args c))
              (take (n_args c) (args c) ++ [Ptr (expand getenv tok); Null])
            = (take (n_args c) (args c) ++ [Ptr (expand getenv tok)])%list)
      as ->.
    { replace (S (n_args c)) with (n_args c + 1) by lia.
      rewrite take_app_add'; [done|]. rewrite length_take. lia. }
    rewrite <- app_assoc. simpl. f_equal. lia.
Qed.

End Arguments.

Section Substitution.

Variable getenv : string → option string.

(** C1, as the code has it: a token that starts with a dollar sign is
    replaced by the value of the variable named by the rest of it, or by the
    empty string when the variable is not set, and that text is appended as
    one more argument, the empty string too.  So a command made of argument
    tokens has one argument per token. *)
Theorem dollar_token_is_an_argument (name saveptr : string)
    (result : command_t) (toks : list string) :
  let value := default "" (getenv name) in
  let grown :=
    {| n_args := n_args result;
       args := resize (n_args result + 2) Garbage (args result);
       out_pathname := out_pathname result;
       in_pathname := in_pathname result |} in
  parse_cmd_loop getenv (Some (String "$"%char name)) saveptr result
  = parse_cmd_loop getenv (strtok_r BLANKS saveptr).1
      (strtok_r BLANKS saveptr).2 (push_arg value grown)
  ∧ n_args (push_arg value grown) = S (n_args result)
  ∧ args (push_arg value grown) !! n_args result = Some (Ptr value)
  ∧ (toks ≠ [] → Forall plain_token toks →
     parse_cmd getenv (String.concat " " toks) =
     (Some {| n_args := length toks;
              args := (((fun t => Ptr (expand getenv t)) <$> toks)
                       ++ [Null])%list;
              out_pathname := None; in_pathname := None |}, "")).
Proof.
  intros value grown. split_and!.
  - rewrite parse_cmd_loop_equation_1. unfold parse_token, expand.
    fold grown. subst value. by destruct (getenv name).
  - done.
  - simpl. rewrite list_lookup_insert_ne by lia.
    apply list_lookup_insert_eq. rewrite length_resize. lia.
  - intros Hne Hplain. rewrite parse_cmd_tokens, fields_concat by done.
    destruct toks as [|tok toks]; [done|].
    by rewrite parse_tokens_plain by (simpl; done || lia).
Qed.

End Substitution.

(** C1, as the specification has it, fails: with [X] not set, "echo $X"
    parses to a command of two arguments, the second one the empty string;
    the token is not dropped. *)
Lemma unset_variable_still_an_argument :
  parse_cmd unset_env "echo $X" =
  (Some {| n_args := 2; args := [Ptr "echo"; Ptr ""; Null];
           out_pathname := None; in_pathname := None |}, "")
  ∧ ¬ (∀ c err, parse_cmd unset_env "echo $X" = (Some c, err) →
         n_args c = 1 ∧ args c = [Ptr "echo"; Null]).
Proof.
  assert (parse_cmd unset_env "echo $X" =
          (Some {| n_args := 2; args := [Ptr "echo"; Ptr ""; Null];
                   out_pathname := None; in_pathname := None |}, "")) as H
    by (by vm_compute).
  split; [done|]. intros Hclaim. by destruct (Hclaim _ _ H).
Qed.

(** ** The theorems at work on concrete lines *)

(** "echo $X" is made of two argument tokens: with [X] not set its second
    argument is the empty string, with [X] set to 5 it is "5". *)
Lemma dollar_token_witness :
  (["echo"; "$X"] ≠ [] ∧ Forall plain_token ["echo"; "$X"])
  ∧ parse_cmd unset_env "echo $X" =
    (Some {| n_args := 2; args := [Ptr "echo"; Ptr ""; Null];
             out_pathname := None; in_pathname := None |}, "")
  ∧ parse_cmd demo_env "echo $X" =
    (Some {| n_args := 2; args := [Ptr "echo"; Ptr "5"; Null];
             out_pathname := None; in_pathname := None |}, "").
Proof.
  assert (["echo"; "$X"] ≠ []) as Hne by done.
  assert (Forall plain_token ["echo"; "$X"]) as Hplain
    by (repeat constructor; done).
  split; [done|]. split.
  - exact (proj2 (proj2 (proj2
      (dollar_token_is_an_argument unset_env "" "" zero_command
         ["echo"; "$X"]))) Hne Hplain).
  - exact (proj2 (proj2 (proj2
      (dollar_token_is_an_argument demo_env "" "" zero_command
         ["echo"; "$X"]))) Hne Hplain).
Defined.

(** "a >x | b" parses, and its output redirection on the first of two
    commands is rejected. *)
Lemma redirection_check_witness :
  parse_line (os_getenv demo_os) "a >x | b" = (Some line_a_to_x_b, "")
  ∧ ∃ rv msg, check_redirections line_a_to_x_b = Some (rv, msg)
      ∧ (rv = CHECK_FAILED →
         execute demo_os "a >x | b" demo_world
         = (Ok tt, log (Stderr msg) demo_world)).
Proof.
  assert (parse_line (os_getenv demo_os) "a >x | b"
          = (Some line_a_to_x_b, "")) as H by (by vm_compute).
  split; [done|].
  destruct (redirection_placement_check demo_os _ _ _ demo_world H)
    as (rv & msg & Hrv & _ & _ & Hfail).
  exists rv, msg. split; [done|]. intros E. by destruct (Hfail E).
Defined.

(** "cd /tmp" parses to a lone [cd] with one operand. *)
Lemma builtin_check_witness :
  parse_line (os_getenv demo_os) "cd /tmp" = (Some line_cd_tmp, "")
  ∧ ∃ c0 rv msg, commands line_cd_tmp !! 0 = Some c0
      ∧ check_cd line_cd_tmp = Some (rv, msg)
      ∧ (arg_at c0 0 = Some "cd" →
         (rv = CHECK_OK ↔
            n_commands line_cd_tmp = 1 ∧ in_pathname c0 = None
            ∧ out_pathname c0 = None ∧ n_args c0 = 2)).
Proof.
  assert (parse_line (os_getenv demo_os) "cd /tmp" = (Some line_cd_tmp, ""))
    as H by (by vm_compute).
  split; [done|].
  destruct (builtin_placement_check demo_os _ _ _ demo_world H)
    as [(c0 & rv & msg & Hc0 & Hrv & _ & Hfirst) _].
  exists c0, rv, msg. split_and!; [done..|].
  intros Hcd. by destruct (Hfirst Hcd).
Defined.

(** Wait status 768 is an exit with status 3, wait status 9 a death by
    signal 9, wait status 0 an exit with status 0. *)
Lemma supervisor_witness :
  (WIFEXITED 768 = true ∧ WEXITSTATUS 768 ≠ 0%Z ∧ WIFSIGNALED 9 = true)
  ∧ report_child demo_os 100 768
    = line_of "Child with PID 100 exited with status 3."
  ∧ report_child demo_os 101 9
    = line_of "Child with PID 101 was killed by signal 9 (Killed)."
  ∧ report_child demo_os 102 0 = "".
Proof.
  assert (WIFEXITED 768 = true) as Hexit by done.
  assert (WEXITSTATUS 768 ≠ 0%Z) as Hcode by done.
  assert (WIFSIGNALED 9 = true) as Hsig by done.
  split; [done|]. split_and!.
  - destruct (supervisor_reports demo_os 100 768 demo_world) as (H & _).
    etrans; [exact (H Hexit Hcode)|]. by vm_compute.
  - destruct (supervisor_reports demo_os 101 9 demo_world) as (_ & H & _).
    etrans; [exact (H Hsig)|]. by vm_compute.
  - destruct (supervisor_reports demo_os 102 0 demo_world)
      as (_ & _ & H & _).
    by apply H.
Defined.

(** "ls -l || wc|" has four segments, two of them with tokens, and parses
    to two commands. *)
Lemma parsed_commands_count_witness :
  parse_line demo_env "ls -l || wc|" = (Some line_ls_wc, "")
  ∧ n_commands line_ls_wc = token_segments "ls -l || wc|".
Proof.
  assert (parse_line demo_env "ls -l || wc|" = (Some line_ls_wc, ""))
    as H by (by vm_compute).
  split; [done|]. exact (parsed_commands_count demo_env _ _ _ H).
Defined.

(** "ls -l" and "ls -l || wc|" parse to a well-formed command and line. *)
Lemma parser_results_witness :
  parse_cmd demo_env "ls -l" =
    (Some {| n_args := 2; args := [Ptr "ls"; Ptr "-l"; Null];
             out_pathname := None; in_pathname := None |}, "")
  ∧ parse_line demo_env "ls -l || wc|" = (Some line_ls_wc, "")
  ∧ 1 ≤ n_commands line_ls_wc
  ∧ is_Some (check_cd line_ls_wc).
Proof.
  assert (parse_cmd demo_env "ls -l" =
    (Some {| n_args := 2; args := [Ptr "ls"; Ptr "-l"; Null];
             out_pathname := None; in_pathname := None |}, "")) as Hc
    by (by vm_compute).
  assert (parse_line demo_env "ls -l || wc|" = (Some line_ls_wc, ""))
    as Hl by (by vm_compute).
  destruct (parser_results_well_formed demo_env) as [_ Hline].
  destruct (Hline _ _ _ Hl) as (Hn & _ & _ & _ & _ & _ & Hcd & _).
  by split_and!.
Defined.

(** "cd /tmp" passes both checks and runs as a call of [chdir] alone. *)
Lemma cd_witness :
  (parse_line (os_getenv demo_os) "cd /tmp" = (Some line_cd_tmp, "")
   ∧ check_redirections line_cd_tmp = Some (CHECK_OK, "")
   ∧ check_cd line_cd_tmp = Some (CHECK_OK, "")
   ∧ commands line_cd_tmp !! 0 = Some command_cd_tmp
   ∧ arg_at command_cd_tmp 0 = Some "cd")
  ∧ ∃ newdir w',
      arg_at command_cd_tmp 1 = Some newdir
      ∧ execute demo_os "cd /tmp" demo_world = (Ok tt, w')
      ∧ w_children w' = w_children demo_world.
Proof.
  assert (parse_line (os_getenv demo_os) "cd /tmp" = (Some line_cd_tmp, ""))
    as H1 by (by vm_compute).
  assert (check_redirections line_cd_tmp = Some (CHECK_OK, "")) as H2 by done.
  assert (check_cd line_cd_tmp = Some (CHECK_OK, "")) as H3 by done.
  assert (commands line_cd_tmp !! 0 = Some command_cd_tmp) as H4 by done.
  assert (arg_at command_cd_tmp 0 = Some "cd") as H5 by done.
  split; [done|].
  destruct (cd_runs_in_the_shell demo_os _ _ _ _ _ _ demo_world
              H1 H2 H3 H4 H5)
    as (newdir & w' & _ & Hdir & _ & Hrun & _ & Hchildren & _).
  by exists newdir, w'.
Defined.

(** * Further properties *)

(** ** What [parse_cmd] makes of the tokens of a segment *)

Section CommandTokens.

Variable getenv : string → option string.

Lemma parse_token_kind tok c :
  parse_token getenv tok c =
  match kind_of tok with
  | Input path =>
      match in_pathname c with
      | Some _ => inr MSG_TWO_IN
      | None =>
          match path with
          | "" => inr MSG_NO_IN_PATH
          | _ => inl {| n_args := n_args c; args := args (grown c);
                        out_pathname := out_pathname c;
                        in_pathname := Some path |}
          end
      end
  | Output path =>
      match out_pathname c with
      | Some _ => inr MSG_TWO_OUT
      | None =>
          match path with
          | "" => inr MSG_NO_OUT_PATH
          | _ => inl {| n_args := n_args c; args := args (grown c);
                        out_pathname := Some path;
                        in_pathname := in_pathname c |}
          end
      end
  | Argument text => inl (push_arg (expand getenv text) (grown c))
  end.
Proof.
  destruct tok as [|a tok]; [done|].
  by destruct a as [[] [] [] [] [] [] [] []].
Qed.

Lemma take_grown (c : command_t) :
  n_args c ≤ length (args c) →
  take (n_args c) (args (grown c)) = take (n_args c) (args c).
Proof.
  intros Hlen. simpl. rewrite take_resize_le by lia. by apply resize_le.
Qed.

Lemma take_push_arg value (c : command_t) :
  n_args c ≤ length (args c) →
  take (S (n_args c)) (args (push_arg value (grown c)))
  = (take (n_args c) (args c) ++ [Ptr value])%list.
Proof.
  intros Hlen. unfold grown. rewrite push_arg_args by done.
  replace (S (n_args c)) with (n_args c + 1) by lia.
  rewrite take_app_add'; [done|]. rewrite length_take. lia.
Qed.

Lemma push_arg_length value (c : command_t) :
  S (n_args c) ≤ length (args (push_arg value (grown c))).
Proof. simpl. rewrite !length_insert, length_resize. lia. Qed.

Lemma parse_tokens_reads toks c c' err :
  n_args c ≤ length (args c) →
  parse_tokens getenv toks c = (Some c', err) →
  take (n_args c') (args c')
  = (take (n_args c) (args c)
     ++ ((fun t => Ptr (expand getenv t)) <$> argument_tokens toks))%list
  ∧ n_args c' = n_args c + length (argument_tokens toks)
  ∧ option_list (in_pathname c')
    = (option_list (in_pathname c) ++ input_paths toks)%list
  ∧ option_list (out_pathname c')
    = (option_list (out_pathname c) ++ output_paths toks)%list
  ∧ ("" ∉ input_paths toks) ∧ ("" ∉ output_paths toks).
Proof.
  revert c. induction toks as [|tok toks IH]; intros c Hlen.
  - simpl. destruct (decide (n_args c = 0)); [done|]. intros [= <- <-].
    rewrite !app_nil_r. split_and!; [done|lia|done|done|..];
      apply not_elem_of_nil.
  - cbn [parse_tokens]. rewrite parse_token_kind.
    unfold input_paths, output_paths, argument_tokens. cbn [omap list_omap].
    fold (input_paths toks) (output_paths toks) (argument_tokens toks).
    destruct (kind_of tok) as [path|path|text].
    + destruct (in_pathname c) eqn:Hin; [done|].
      destruct path as [|a path]; [done|]. intros H.
      apply IH in H as (Hargs & Hn & Hi & Ho & Hie & Hoe);
        [|simpl; rewrite length_resize; lia].
      cbn [n_args args in_pathname out_pathname] in *.
      rewrite Hargs, Hn, Hi, Ho. fold (args (grown c)).
      rewrite take_grown by done.
      split_and!; try done. by apply not_elem_of_cons.
    + destruct (out_pathname c) eqn:Hout; [done|].
      destruct path as [|a path]; [done|]. intros H.
      apply IH in H as (Hargs & Hn & Hi & Ho & Hie & Hoe);
        [|simpl; rewrite length_resize; lia].
      cbn [n_args args in_pathname out_pathname] in *.
      rewrite Hargs, Hn, Hi, Ho. fold (args (grown c)).
      rewrite take_grown by done.
      split_and!; try done. by apply not_elem_of_cons.
    + intros H.
      apply IH in H as (Hargs & Hn & Hi & Ho & Hie & Hoe);
        [|exact (push_arg_length _ c)].
      rewrite Hargs, Hn, Hi, Ho.
      change (n_args (push_arg (expand getenv text) (grown c)))
        with (S (n_args c)).
      rewrite take_push_arg by done. simpl.
      rewrite <- app_assoc. split_and!; first [done|lia].
Qed.

(** The tokens that [parse_cmd] accepts, for a command built so far. *)
Lemma parse_tokens_accepts toks c :
  is_Some (parse_tokens getenv toks c).1 ↔
  n_args c + length (argument_tokens toks) ≠ 0
  ∧ length (option_list (in_pathname c) ++ input_paths toks) ≤ 1
  ∧ length (option_list (out_pathname c) ++ output_paths toks) ≤ 1
  ∧ ("" ∉ input_paths toks) ∧ ("" ∉ output_paths toks).
Proof.
  revert c. induction toks as [|tok toks IH]; intros c.
  - simpl. destruct (decide (n_args c = 0)) as [E|E]; simpl.
    + split; [by intros [? [=]]|]. intros (? & _). lia.
    + split; [intros _|by eexists].
      split_and!; [lia| | |apply not_elem_of_nil..]; rewrite app_nil_r.
      * destruct (in_pathname c); simpl; lia.
      * destruct (out_pathname c); simpl; lia.
  - cbn [parse_tokens]. rewrite parse_token_kind.
    unfold input_paths, output_paths, argument_tokens. cbn [omap list_omap].
    fold (input_paths toks) (output_paths toks) (argument_tokens toks).
    destruct (kind_of tok) as [path|path|text].
    + destruct (in_pathname c) eqn:Hin.
      { simpl. split; [by intros [? [=]]|]. intros (_ & Hl & _).
        simpl in Hl. lia. }
      destruct path as [|a path].
      { simpl. split; [by intros [? [=]]|]. intros (_ & _ & _ & Hne & _).
        destruct Hne. by left. }
      rewrite IH. cbn [n_args in_pathname out_pathname option_list].
      rewrite not_elem_of_cons. simpl. intuition done.
    + destruct (out_pathname c) eqn:Hout.
      { simpl. split; [by intros [? [=]]|]. intros (_ & _ & Hl & _).
        simpl in Hl. lia. }
      destruct path as [|a path].
      { simpl. split; [by intros [? [=]]|]. intros (_ & _ & _ & _ & Hne).
        destruct Hne. by left. }
      rewrite IH. cbn [n_args in_pathname out_pathname option_list].
      rewrite not_elem_of_cons. simpl. intuition done.
    + rewrite IH. simpl. intuition lia.
Qed.

Lemma parse_tokens_diagnoses toks c err :
  parse_tokens getenv toks c = (None, err) →
  (err = MSG_TWO_IN
   ∧ 2 ≤ length (option_list (in_pathname c) ++ input_paths toks))
  ∨ (err = MSG_NO_IN_PATH ∧ "" ∈ input_paths toks)
  ∨ (err = MSG_TWO_OUT
     ∧ 2 ≤ length (option_list (out_pathname c) ++ output_paths toks))
  ∨ (err = MSG_NO_OUT_PATH ∧ "" ∈ output_paths toks)
  ∨ (err = MSG_EMPTY ∧ n_args c + length (argument_tokens toks) = 0).
Proof.
  revert c. induction toks as [|tok toks IH]; intros c.
  - simpl. destruct (decide (n_args c = 0)) as [E|E]; [|done].
    intros [= <-]. do 4 right. split; [done|lia].
  - cbn [parse_tokens]. rewrite parse_token_kind.
    unfold input_paths, output_paths, argument_tokens. cbn [omap list_omap].
    fold (input_paths toks) (output_paths toks) (argument_tokens toks).
    destruct (kind_of tok) as [path|path|text].
    + destruct (in_pathname c) eqn:Hin.
      { intros [= <-]. left. split; [done|]. simpl. lia. }
      destruct path as [|a path].
      { intros [= <-]. right; left. split; [done|]. by left. }
      intros H. apply IH in H.
      cbn [n_args in_pathname out_pathname option_list] in H.
      rewrite elem_of_cons. simpl in *. intuition auto.
    + destruct (out_pathname c) eqn:Hout.
      { intros [= <-]. do 2 right; left. split; [done|]. simpl. lia. }
      destruct path as [|a path].
      { intros [= <-]. do 3 right; left. split; [done|]. by left. }
      intros H. apply IH in H.
      cbn [n_args in_pathname out_pathname option_list] in H.
      rewrite elem_of_cons. simpl in *. intuition auto.
    + intros H. apply IH in H. simpl in *.
      destruct H as [H|[H|[H|[H|[? H]]]]]; [by auto..|lia].
Qed.

(** X1: the command that [parse_cmd] returns holds the tokens of the
    segment by kind: its arguments are the tokens that are no redirection,
    in their order and each expanded; its input path is what follows the
    one token that starts with [<], its output path what follows the one
    that starts with [>], wherever these stand among the arguments; paths
    are kept as written and are never empty. *)
Theorem parse_cmd_reads_tokens (cmdstr : string) (c : command_t)
    (err : string) :
  parse_cmd getenv cmdstr = (Some c, err) →
  take (n_args c) (args c)
  = ((fun t => Ptr (expand getenv t))
     <$> argument_tokens (fields BLANKS cmdstr))
  ∧ n_args c = length (argument_tokens (fields BLANKS cmdstr))
  ∧ input_paths (fields BLANKS cmdstr) = option_list (in_pathname c)
  ∧ output_paths (fields BLANKS cmdstr) = option_list (out_pathname c)
  ∧ in_pathname c ≠ Some "" ∧ out_pathname c ≠ Some "".
Proof.
  rewrite parse_cmd_tokens. intros H.
  apply parse_tokens_reads in H as (Hargs & Hn & Hi & Ho & Hie & Hoe);
    [|simpl; lia].
  simpl in *. split_and!; [done..| |].
  - intros E. rewrite E in Hi. apply Hie. rewrite <- Hi. by left.
  - intros E. rewrite E in Ho. apply Hoe. rewrite <- Ho. by left.
Qed.

(** X2: [parse_cmd] returns a command exactly when the segment has at
    least one token that is no redirection, at most one input and at most
    one output redirection, and no redirection without a path. *)
Theorem parse_cmd_accepts (cmdstr : string) :
  is_Some (parse_cmd getenv cmdstr).1 ↔
  argument_tokens (fields BLANKS cmdstr) ≠ []
  ∧ length (input_paths (fields BLANKS cmdstr)) ≤ 1
  ∧ length (output_paths (fields BLANKS cmdstr)) ≤ 1
  ∧ ("" ∉ input_paths (fields BLANKS cmdstr))
  ∧ ("" ∉ output_paths (fields BLANKS cmdstr)).
Proof.
  rewrite parse_cmd_tokens, parse_tokens_accepts. simpl.
  by rewrite length_zero_iff_nil.
Qed.

(** X3: when [parse_cmd] returns no command it has written exactly one
    diagnostic, and the segment has the defect that the diagnostic names:
    two input (output) redirections, a redirection without a path, or no
    argument at all. *)
Theorem parse_cmd_diagnostics (cmdstr err : string) :
  parse_cmd getenv cmdstr = (None, err) →
  (err = line_of "Parsing error: cannot have more than one input redirection"
   ∧ 2 ≤ length (input_paths (fields BLANKS cmdstr)))
  ∨ (err = line_of "Parsing error: no path specified for input redirection"
     ∧ "" ∈ input_paths (fields BLANKS cmdstr))
  ∨ (err = line_of "Parsing error: cannot have more than one output redirection"
     ∧ 2 ≤ length (output_paths (fields BLANKS cmdstr)))
  ∨ (err = line_of "Parsing error: no path specified for output redirection"
     ∧ "" ∈ output_paths (fields BLANKS cmdstr))
  ∨ (err = line_of "Parsing error: empty command"
     ∧ argument_tokens (fields BLANKS cmdstr) = []).
Proof.
  rewrite parse_cmd_tokens. intros H. apply parse_tokens_diagnoses in H.
  simpl in H. destruct H as [H|[H|[H|[H|[? H]]]]]; [by auto..|].
  do 4 right. split; [done|]. by apply length_zero_iff_nil.
Qed.

End CommandTokens.

(** ** What [parse_line] makes of the segments of a line *)

Section LineSegments.

Variable getenv : string → option string.

Lemma push_command_snoc c l :
  length (commands l) = n_commands l →
  push_command c l
  = {| n_commands := n_commands l + 1;
       commands := (commands l ++ [c])%list |}.
Proof.
  intros Hlen. unfold push_command. rewrite <- Hlen, firstn_all.
  f_equal. lia.
Qed.

Lemma parse_cmd_failure_nonempty cmdstr err :
  parse_cmd getenv cmdstr = (None, err) → err ≠ "".
Proof.
  rewrite parse_cmd_tokens. intros H. apply parse_tokens_diagnoses in H.
  destruct H as [[-> _]|[[-> _]|[[-> _]|[[-> _]|[-> _]]]]];
    apply line_of_nonempty.
Qed.

Lemma parse_segments_reads segs l l' err :
  length (commands l) = n_commands l →
  parse_segments getenv segs l = (Some l', err) →
  ∃ cs, l' = {| n_commands := n_commands l + length cs;
                commands := (commands l ++ cs)%list |}
        ∧ err = ""
        ∧ Forall2 (fun seg c => parse_cmd getenv seg = (Some c, "")) segs cs.
Proof.
  revert l err. induction segs as [|seg segs IH]; intros l err Hlen; simpl.
  - intros [= <- <-]. exists []. split_and!; [|done|constructor].
    destruct l. simpl. rewrite app_nil_r. f_equal. lia.
  - destruct (parse_cmd getenv seg) as [[c|] e] eqn:E; [|done].
    pose proof (parse_cmd_wf _ _ _ _ E) as [_ ->].
    destruct (parse_segments getenv segs (push_command c l)) as [r e] eqn:Er.
    simpl. intros [= -> <-]. rewrite push_command_snoc in Er by done.
    apply IH in Er as (cs & -> & -> & Hcs);
      [|simpl; rewrite length_app; simpl; lia].
    exists (c :: cs). simpl. split_and!; [|done|by constructor].
    rewrite <- app_assoc. simpl. f_equal. lia.
Qed.

Lemma parse_segments_builds segs l cs :
  length (commands l) = n_commands l →
  Forall2 (fun seg c => parse_cmd getenv seg = (Some c, "")) segs cs →
  parse_segments getenv segs l
  = (Some {| n_commands := n_commands l + length cs;
             commands := (commands l ++ cs)%list |}, "").
Proof.
  intros Hlen Hcs. revert l Hlen.
  induction Hcs as [|seg c segs cs Hc _ IH]; intros l Hlen; simpl.
  - destruct l. simpl. rewrite app_nil_r. do 3 f_equal. lia.
  - rewrite Hc, push_command_snoc by done.
    rewrite IH by (simpl; rewrite length_app; simpl; lia). simpl.
    rewrite <- app_assoc. simpl. do 3 f_equal. lia.
Qed.

Lemma parse_segments_fails segs l err :
  parse_segments getenv segs l = (None, err) →
  ∃ pre seg post, segs = (pre ++ seg :: post)%list
    ∧ Forall (fun s => is_Some (parse_cmd getenv s).1) pre
    ∧ parse_cmd getenv seg = (None, err).
Proof.
  revert l err. induction segs as [|seg segs IH]; intros l err; simpl; [done|].
  destruct (parse_cmd getenv seg) as [[c|] e] eqn:E.
  - pose proof (parse_cmd_wf _ _ _ _ E) as [_ ->].
    destruct (parse_segments getenv segs (push_command c l)) as [[r|] e] eqn:Er;
      [done|].
    simpl. intros [= <-]. apply IH in Er as (pre & s & post & -> & Hpre & Hs).
    exists (seg :: pre), s, post. split_and!; [done| |done].
    constructor; [|done]. rewrite E. by eexists.
  - intros [= <-]. exists [], seg, segs. by split_and!.
Qed.

(** X4: [parse_line] returns a line exactly when the text has a segment
    that is not empty and [parse_cmd] accepts every such segment; the
    commands of the line are then the commands of these segments, one for
    one and in the order of the text, and nothing is written. *)
Theorem parse_line_reads_segments (line : string) (l : line_t)
    (err : string) :
  parse_line getenv line = (Some l, err) ↔
  fields PIPE line ≠ [] ∧ err = ""
  ∧ n_commands l = length (commands l)
  ∧ Forall2 (fun seg c => parse_cmd getenv seg = (Some c, ""))
      (fields PIPE line) (commands l).
Proof.
  rewrite parse_line_segments. split.
  - destruct (fields PIPE line) as [|seg segs] eqn:E; [done|].
    intros H. apply parse_segments_reads in H as (cs & -> & -> & Hcs); [|done].
    simpl. split_and!; [done|done| |done].
    by apply Forall2_length in Hcs as <-.
  - intros (Hne & -> & Hn & Hcs).
    destruct (fields PIPE line) as [|seg segs] eqn:E; [done|].
    rewrite (parse_segments_builds _ zero_line _ eq_refl Hcs). simpl.
    destruct l as [n cs]. simpl in *. by rewrite Hn.
Qed.

(** X5: when [parse_line] returns no line, either the text has no segment
    at all and nothing is written, or what is written is the diagnostic of
    the first segment that [parse_cmd] refuses, and nothing else: the
    segments before it were accepted and those after it are not looked
    at. *)
Theorem parse_line_diagnostics (line err : string) :
  parse_line getenv line = (None, err) →
  (fields PIPE line = [] ∧ err = "")
  ∨ (∃ pre seg post, fields PIPE line = (pre ++ seg :: post)%list
       ∧ Forall (fun s => is_Some (parse_cmd getenv s).1) pre
       ∧ parse_cmd getenv seg = (None, err) ∧ err ≠ "").
Proof.
  rewrite parse_line_segments.
  destruct (fields PIPE line) as [|seg segs] eqn:E.
  - intros [= <-]. by left.
  - intros H. right.
    apply parse_segments_fails in H as (pre & s & post & -> & Hpre & Hs).
    exists pre, s, post. split_and!; [done..|].
    by eapply parse_cmd_failure_nonempty.
Qed.

End LineSegments.

(** ** What [execute] does with a line *)

Section Execute.

Variable os : os_t.

Lemma check_redirections_failed_nonempty l msg :
  wf_line l → check_redirections l = Some (CHECK_FAILED, msg) → msg ≠ "".
Proof.
  intros Hwf Hrv.
  destruct (check_redirections_loop_spec l (n_commands l) 0 Hwf)
    as (rv & m & Hrv' & _ & Hfail); [lia|].
  fold (check_redirections l) in Hrv'. rewrite Hrv in Hrv'.
  injection Hrv' as <- <-.
  destruct (Hfail eq_refl) as (_ & _ & _ & _ & _ & [[_ ->]|(_ & _ & ->)]);
    apply line_of_nonempty.
Qed.

Lemma check_redirections_ok_silent l msg :
  wf_line l → check_redirections l = Some (CHECK_OK, msg) → msg = "".
Proof.
  intros Hwf Hrv.
  destruct (check_redirections_loop_spec l (n_commands l) 0 Hwf)
    as (rv & m & Hrv' & Hok & _); [lia|].
  fold (check_redirections l) in Hrv'. rewrite Hrv in Hrv'.
  injection Hrv' as <- <-. by destruct (Hok eq_refl).
Qed.

Lemma check_cd_loop_message l todo i msg :
  check_cd_loop l todo i = Some (Some msg) → msg = MSG_CD_IN_PIPE.
Proof.
  revert i. induction todo as [|todo IH]; intros i; simpl; [done|].
  destruct (command_at l i) as [c|]; simpl; [|done].
  destruct (arg_at c 0) as [name|]; simpl; [|done].
  case_bool_decide; [by intros [= <-]|apply IH].
Qed.

Lemma check_cd_verdict l rv msg :
  check_cd l = Some (rv, msg) →
  match rv with
  | CHECK_OK => msg = ""
  | CHECK_FAILED => msg ≠ ""
  end.
Proof.
  unfold check_cd.
  destruct (check_cd_loop l (n_commands l - 1) 1) as [[m|]|] eqn:E;
    simpl; [| |done].
  - apply check_cd_loop_message in E as ->. intros [= <- <-].
    apply line_of_nonempty.
  - destruct (command_at l 0) as [c|]; simpl; [|done].
    destruct (arg_at c 0) as [name|]; simpl; [|done].
    repeat (case_bool_decide; simpl); intros [= <- <-];
      first [done|apply line_of_nonempty].
Qed.

(** X6: what [execute] does with a line is one of four things.  A line that
    does not parse only has the parser's diagnostic written (nothing for a
    line without segment); a line that fails [check_redirections], or
    passes it and fails [check_cd], only has that check's message written;
    in these cases the descriptors, the children and the working directory
    are left as they were.  Any other line is handed to [execute_line], and
    nothing was written before. *)
Theorem execute_outcomes (line : string) (w : world) :
  (∃ err, parse_line (os_getenv os) line = (None, err)
     ∧ execute os line w = (Ok tt, written Stderr err w))
  ∨ (∃ l msg, parse_line (os_getenv os) line = (Some l, "")
       ∧ check_redirections l = Some (CHECK_FAILED, msg)
       ∧ execute os line w = (Ok tt, log (Stderr msg) w))
  ∨ (∃ l msg, parse_line (os_getenv os) line = (Some l, "")
       ∧ check_redirections l = Some (CHECK_OK, "")
       ∧ check_cd l = Some (CHECK_FAILED, msg)
       ∧ execute os line w = (Ok tt, log (Stderr msg) w))
  ∨ (∃ l, parse_line (os_getenv os) line = (Some l, "")
       ∧ check_redirections l = Some (CHECK_OK, "")
       ∧ check_cd l = Some (CHECK_OK, "")
       ∧ execute os line w = execute_line os l w).
Proof.
  destruct (parse_line (os_getenv os) line) as [[l|] err] eqn:Hparse.
  2:{ left. exists err. split; [done|]. unfold execute. by rewrite Hparse. }
  right. pose proof (execute_parsed _ _ _ _ w Hparse) as Hexec.
  apply parse_line_wf in Hparse as (Hwf & -> & _).
  destruct (check_redirections_loop_spec l (n_commands l) 0 Hwf)
    as (rv & msg & Hrv & _); [lia|].
  fold (check_redirections l) in Hrv. rewrite Hrv in Hexec.
  destruct rv.
  2:{ left. exists l, msg. split_and!; [done..|]. rewrite Hexec.
      by rewrite written_nonempty
        by by eapply check_redirections_failed_nonempty. }
  apply check_redirections_ok_silent in Hrv as Hmsg; [|done]. subst msg.
  right. destruct (check_cd_spec l Hwf) as (_ & rv & msg & _ & Hcd & _).
  rewrite Hcd in Hexec. pose proof (check_cd_verdict _ _ _ Hcd) as Hmsg.
  destruct rv.
  - right. subst msg. by exists l.
  - left. exists l, msg. split_and!; [done..|]. rewrite Hexec. cbn.
    by rewrite written_nonempty.
Qed.

(** *** No assertion fails *)

Lemma returns_or_exits_bind {A B} (m : M A) (f : A → M B) :
  returns_or_exits m → (∀ a, returns_or_exits (f a)) →
  returns_or_exits (m ≫= f).
Proof.
  intros Hm Hf w. unfold mbind, M_bind. specialize (Hm w).
  destruct (m w) as [[a|why] w']; [apply Hf|done].
Qed.

Lemma returns_or_exits_bind_ret {A B} (a : A) (f : A → M B) :
  returns_or_exits (f a) → returns_or_exits (mret a ≫= f).
Proof. intros Hf w. apply Hf. Qed.

Lemma returns_or_exits_ret {A} (a : A) : returns_or_exits (mret a).
Proof. by intros w. Qed.

Lemma returns_or_exits_defined {A} (a : A) :
  returns_or_exits (defined (Some a)).
Proof. by intros w. Qed.

Lemma returns_or_exits_perror msg : returns_or_exits (perror msg).
Proof. by intros w. Qed.

Lemma returns_or_exits_fatal {A} msg : returns_or_exits (@fatal_errno A msg).
Proof. by intros w. Qed.

Lemma returns_or_exits_assert : returns_or_exits (assert true).
Proof. by intros w. Qed.

Lemma returns_or_exits_write_stderr text :
  returns_or_exits (write_stderr text).
Proof. by intros w. Qed.

Lemma returns_or_exits_sys_open path writing :
  returns_or_exits (sys_open os path writing).
Proof. intros w. unfold sys_open. by destruct (_ && _). Qed.

Lemma returns_or_exits_sys_pipe : returns_or_exits (sys_pipe os).
Proof. intros w. unfold sys_pipe. by case_bool_decide. Qed.

Lemma returns_or_exits_sys_cloexec fd : returns_or_exits (sys_cloexec fd).
Proof. intros w. unfold sys_cloexec. by destruct (decide _). Qed.

Lemma returns_or_exits_sys_close fd : returns_or_exits (sys_close fd).
Proof. intros w. unfold sys_close. by destruct (decide _). Qed.

Lemma returns_or_exits_sys_fork child : returns_or_exits (sys_fork os child).
Proof. intros w. unfold sys_fork. by case_bool_decide. Qed.

Lemma returns_or_exits_sys_chdir dir : returns_or_exits (sys_chdir os dir).
Proof. intros w. unfold sys_chdir. by destruct (os_chdir _ _ _). Qed.

Lemma returns_or_exits_wait : returns_or_exits (wait_for_children os).
Proof.
  intros w. unfold wait_for_children.
  by destruct (wait_for_children_loop_returns os 0%Z w) as [w' ->].
Qed.

Create HintDb exits discriminated.

#[local] Hint Resolve returns_or_exits_ret returns_or_exits_defined
  returns_or_exits_perror returns_or_exits_fatal returns_or_exits_assert
  returns_or_exits_write_stderr returns_or_exits_sys_open
  returns_or_exits_sys_pipe returns_or_exits_sys_cloexec
  returns_or_exits_sys_close returns_or_exits_sys_fork
  returns_or_exits_sys_chdir returns_or_exits_wait : exits.

Ltac no_abort :=
  repeat first
    [ solve [auto with exits]
    | apply returns_or_exits_bind; [|intros ?]
    | case_bool_decide
    | match goal with
      | |- returns_or_exits (match ?x with _ => _ end) => destruct x
      | |- returns_or_exits (if ?b then _ else _) => destruct b
      end ].

Lemma returns_or_exits_open_input c a next_stdin :
  (in_pathname c ≠ None → a = 0) →
  returns_or_exits (open_input os c a next_stdin).
Proof.
  intros Hfirst. unfold open_input.
  destruct (in_pathname c); [|no_abort].
  rewrite bool_decide_eq_true_2 by auto. no_abort.
Qed.

Lemma returns_or_exits_open_output l c a next_stdin :
  (out_pathname c ≠ None → is_last l a = true) →
  returns_or_exits (open_output os l c a next_stdin).
Proof.
  intros Hlast. unfold open_output.
  destruct (out_pathname c); [rewrite Hlast by done|]; no_abort.
Qed.

Lemma returns_or_exits_execute_line_loop l todo a next_stdin :
  wf_line l → a + todo = n_commands l →
  (∀ j c, commands l !! j = Some c →
     ¬ misplaced_input j c ∧ ¬ misplaced_output l j c) →
  returns_or_exits (execute_line_loop os l todo a next_stdin).
Proof.
  intros Hwf Ha Hplaced. pose proof Hwf as (Hn & Hlen & _).
  revert a next_stdin Ha.
  induction todo as [|todo IH]; intros a next_stdin Ha; simpl.
  { auto with exits. }
  unfold command_at. destruct (commands l !! a) as [c|] eqn:Hc;
    [|apply lookup_ge_None in Hc; lia].
  destruct (Hplaced a c Hc) as [Hin Hout].
  apply returns_or_exits_bind_ret.
  apply returns_or_exits_bind.
  { apply returns_or_exits_open_input. intros Hp.
    destruct (decide (a = 0)); [done|]. by destruct Hin. }
  intros [curr_stdin|]; [|no_abort].
  apply returns_or_exits_bind.
  { apply returns_or_exits_open_output. intros Hp.
    apply is_last_spec; [done|].
    destruct (decide (a = n_commands l - 1)); [done|]. by destruct Hout. }
  intros [[curr_stdout next_stdin']|]; [|no_abort].
  unfold run_child, close_if_needed. no_abort. apply IH. lia.
Qed.

Lemma returns_or_exits_execute_line l msg msg' :
  wf_line l →
  check_redirections l = Some (CHECK_OK, msg) →
  check_cd l = Some (CHECK_OK, msg') →
  returns_or_exits (execute_line os l).
Proof.
  intros Hwf Hredir Hcd.
  destruct (check_redirections_loop_spec l (n_commands l) 0 Hwf)
    as (rv & m & Hrv & Hok & _); [lia|].
  fold (check_redirections l) in Hrv. rewrite Hredir in Hrv.
  injection Hrv as <- <-. destruct (Hok eq_refl) as [_ Hplaced].
  destruct (check_cd_spec l Hwf) as (c0 & rv & m & Hc0 & Hrv & Hpipe & Hfirst).
  rewrite Hcd in Hrv. injection Hrv as <- <-.
  pose proof (wf_line_lookup _ _ _ Hwf Hc0) as Hwc.
  destruct (arg_at_defined c0 0 Hwc) as [name Hname]; [destruct Hwc; lia|].
  unfold execute_line, command_at. rewrite Hc0.
  apply returns_or_exits_bind_ret. rewrite Hname.
  apply returns_or_exits_bind_ret. case_bool_decide as Hcd0.
  - assert (is_cd c0) as His by (unfold is_cd; rewrite Hname; by f_equal).
    destruct (check_cd_loop_spec l (n_commands l - 1) 1 Hwf)
      as [[_ Hno]|[_ (j & c & Hj & Hcj & Hcdj)]]; [destruct Hwf; lia| |].
    2:{ destruct Hpipe as [[=] _]. exists j, c. split_and!; [lia|done..]. }
    destruct Hfirst as [_ Hfirst].
    { intros j c Hj Hcj. apply (Hno j); [lia|done]. }
    destruct (Hfirst His) as ([(Hone & _ & _ & Hargs) _] & _); [done|].
    rewrite Hone, Hargs.
    change (assert (bool_decide (1 = 1) && bool_decide (2 = 2)))
      with (mret (M:=M) tt).
    apply returns_or_exits_bind_ret.
    destruct (arg_at_defined c0 1 Hwc) as [dir ->]; [lia|].
    apply returns_or_exits_bind_ret.
    unfold change_current_directory. no_abort.
  - apply returns_or_exits_execute_line_loop; [done|lia|].
    intros j c Hc. apply Hplaced; [lia|done].
Qed.

(** X7: whatever the line, [execute] either returns or ends the shell
    through [fatal_errno]: none of the assertions of [execute_line] fails
    and nothing is read out of bounds, because [execute_line] only runs on
    lines that parsed and passed both checks. *)
Theorem execute_never_aborts (line : string) (w : world) :
  (execute os line w).1 = Ok tt ∨ (execute os line w).1 = Stop Exit_failure.
Proof.
  assert (match (execute os line w).1 with
          | Ok _ => True
          | Stop why => why = Exit_failure
          end) as H.
  { destruct (parse_line (os_getenv os) line) as [[l|] err] eqn:Hparse.
    2:{ unfold execute. by rewrite Hparse. }
    rewrite (execute_parsed _ _ _ _ w Hparse).
    apply parse_line_wf in Hparse as (Hwf & _).
    destruct (check_redirections_loop_spec l (n_commands l) 0 Hwf)
      as (rv & msg & Hrv & _); [lia|].
    fold (check_redirections l) in Hrv. rewrite Hrv.
    destruct rv; [|done].
    destruct (check_cd_spec l Hwf) as (_ & rv & msg' & _ & Hcd & _).
    rewrite Hcd. destruct rv; [|done].
    by eapply returns_or_exits_execute_line. }
  destruct (execute os line w).1 as [[]|why]; [by left|right; by subst].
Qed.

(** X8: when the first command of a line is not [cd] and its input file
    cannot be opened, [execute_line] records the failed [open], prints the
    error and returns: nothing was spawned, no descriptor was opened and no
    child was waited for, whatever the rest of the line is. *)
Theorem unreadable_input_spawns_nothing (l : line_t) (c0 : command_t)
    (name path : string) (w : world) :
  commands l !! 0 = Some c0 → arg_at c0 0 = Some name → name ≠ "cd" →
  1 ≤ n_commands l →
  in_pathname c0 = Some path → os_readable os path = false →
  execute_line os l w
  = (Ok tt, log (Perror path) (log (Open path false (-1)) w)).
Proof.
  intros Hc0 Hname Hcd Hn Hin Hopen.
  unfold execute_line, command_at. rewrite Hc0.
  change (defined (Some c0)) with (mret (M:=M) c0).
  rewrite bind_ret, Hname.
  change (defined (Some name)) with (mret (M:=M) name).
  rewrite bind_ret, bool_decide_eq_false_2 by (unfold CD; congruence).
  destruct (n_commands l) as [|todo]; [lia|].
  cbn [execute_line_loop]. unfold command_at. rewrite Hc0.
  change (defined (Some c0)) with (mret (M:=M) c0). rewrite bind_ret.
  unfold open_input. rewrite Hin.
  unfold mbind, M_bind, assert, sys_open, perror, emit. cbn.
  by rewrite Hopen.
Qed.

End Execute.

(** ** Descriptors *)

Lemma lowest_free_from_spec fuel fd fds :
  (fd ≤ lowest_free_from fuel fd fds)%Z
  ∧ (∀ x, fd ≤ x < lowest_free_from fuel fd fds → x ∈ fds)%Z
  ∧ (lowest_free_from fuel fd fds ∈ fds →
     lowest_free_from fuel fd fds = fd + Z.of_nat fuel)%Z.
Proof.
  revert fd. induction fuel as [|fuel IH]; intros fd; simpl.
  - split_and!; [lia|intros; lia|intros; lia].
  - destruct (decide (fd ∈ fds)) as [Hin|Hout].
    + destruct (IH (fd + 1)%Z) as (Hle & Hbelow & Hfull).
      split_and!; [lia| |intros H; rewrite Hfull by done; lia].
      intros x Hx. destruct (decide (x = fd)) as [->|]; [done|].
      apply Hbelow. lia.
    + split_and!; [lia|intros; lia|done].
Qed.

(** The descriptor that [open] and [pipe] hand out is not negative and was
    not open. *)
Lemma lowest_free_fresh fds :
  (0 ≤ lowest_free fds)%Z ∧ lowest_free fds ∉ fds.
Proof.
  unfold lowest_free.
  destruct (lowest_free_from_spec (length fds) 0 fds) as (Hle & Hbelow & Hfull).
  split; [done|]. intros Hin. specialize (Hfull Hin).
  assert (seqZ 0 (Z.of_nat (length fds) + 1) ⊆+ fds) as Hsub.
  { apply NoDup_submseteq; [apply NoDup_seqZ|].
    intros x Hx%elem_of_seqZ.
    destruct (decide (x = lowest_free_from (length fds) 0 fds)) as [->|];
      [done|].
    apply Hbelow. lia. }
  apply submseteq_length in Hsub. rewrite length_seqZ in Hsub. lia.
Qed.

(** ** The steps of the launcher, when nothing fails *)

Section Steps.

Variable os : os_t.

Lemma bind_run {A B} (m : M A) (f : A → M B) w a w' :
  m w = (Ok a, w') → (m ≫= f) w = f a w'.
Proof. intros H. unfold mbind, M_bind. by rewrite H. Qed.

Lemma advanced_advanced fds1 pids1 evs1 fds2 pids2 evs2 w :
  advanced fds2 pids2 evs2 (advanced fds1 pids1 evs1 w)
  = advanced fds2 (pids1 ++ pids2) (evs1 ++ evs2) w.
Proof.
  unfold advanced. simpl. rewrite !app_assoc, length_app. f_equal. lia.
Qed.

Lemma advanced_id w : advanced (w_fds w) [] [] w = w.
Proof.
  destruct w. unfold advanced. simpl. rewrite !app_nil_r. f_equal. lia.
Qed.

Lemma sys_open_run path (writing : bool) w :
  (if writing then os_writable os path else os_readable os path) = true →
  length (w_fds w) < os_fd_limit os →
  sys_open os path writing w
  = (Ok (lowest_free (w_fds w)),
     advanced (lowest_free (w_fds w) :: w_fds w) []
       [Open path writing (lowest_free (w_fds w))] w).
Proof.
  intros Hpath Hroom. unfold sys_open. rewrite Hpath.
  rewrite bool_decide_eq_true_2 by done. simpl. f_equal.
  unfold advanced, log, set_fds. simpl. rewrite app_nil_r. f_equal. lia.
Qed.

Lemma sys_pipe_run w :
  length (w_fds w) + 2 ≤ os_fd_limit os →
  sys_pipe os w
  = (Ok (Some (lowest_free (w_fds w),
               lowest_free (lowest_free (w_fds w) :: w_fds w))),
     advanced (lowest_free (lowest_free (w_fds w) :: w_fds w)
               :: lowest_free (w_fds w) :: w_fds w) []
       [Pipe (lowest_free (w_fds w))
          (lowest_free (lowest_free (w_fds w) :: w_fds w))] w).
Proof.
  intros Hroom. unfold sys_pipe. rewrite bool_decide_eq_true_2 by done.
  f_equal. unfold advanced, log, set_fds. simpl. rewrite app_nil_r.
  f_equal. lia.
Qed.

Lemma sys_cloexec_run fd w :
  fd ∈ w_fds w →
  sys_cloexec fd w = (Ok 0%Z, advanced (w_fds w) [] [Cloexec fd] w).
Proof.
  intros Hfd. unfold sys_cloexec. destruct (decide (fd ∈ w_fds w)); [|done].
  f_equal. unfold advanced, log. simpl. rewrite app_nil_r. f_equal. lia.
Qed.

Lemma sys_fork_run child w :
  length (w_children w) < os_proc_limit os →
  sys_fork os child w
  = (Ok (w_next_pid w),
     advanced (w_fds w) [w_next_pid w] [Fork (w_next_pid w) child] w).
Proof.
  intros Hroom. unfold sys_fork. by rewrite bool_decide_eq_true_2 by done.
Qed.

Lemma run_child_run c c_stdin c_stdout w :
  length (w_children w) < os_proc_limit os → (0 ≤ w_next_pid w)%Z →
  run_child os c c_stdin c_stdout w
  = (Ok tt,
     advanced (w_fds w) [w_next_pid w]
       [Fork (w_next_pid w) (child_of c c_stdin c_stdout)] w).
Proof.
  intros Hroom Hpid. unfold run_child.
  erewrite bind_run by by apply sys_fork_run.
  by rewrite bool_decide_eq_false_2 by lia.
Qed.

Lemma filter_absent (fd : Z) (fds : list Z) :
  fd ∉ fds → filter (fun x => x ≠ fd) fds = fds.
Proof.
  induction fds as [|x fds IH]; [done|].
  intros [Hx Hfds]%not_elem_of_cons.
  rewrite filter_cons_True by done. by rewrite IH.
Qed.

Lemma close_if_needed_run fd before after w :
  w_fds w = (before ++ held fd ++ after)%list →
  (fd ≠ NO_REDIR → (fd ∉ before) ∧ (fd ∉ after)) →
  close_if_needed fd w
  = (Ok tt, advanced (before ++ after) [] (closes fd) w).
Proof.
  intros Hfds Hfresh. unfold close_if_needed, held, closes in *.
  case_bool_decide as Hfd.
  - destruct (decide (fd = NO_REDIR)); [|done]. simpl in Hfds.
    rewrite <- Hfds. by rewrite advanced_id.
  - destruct (decide (fd = NO_REDIR)); [done|].
    destruct (Hfresh Hfd) as [Hbefore Hafter].
    assert (fd ∈ w_fds w) as Hin.
    { rewrite Hfds, !elem_of_app. right; left. by left. }
    unfold mbind, M_bind, sys_close.
    destruct (decide (fd ∈ w_fds w)); [|done]. simpl.
    f_equal. unfold advanced, log, set_fds. simpl.
    rewrite app_nil_r, Hfds, !filter_app, filter_cons_False by (by intros ?).
    rewrite filter_nil, !filter_absent by done. simpl. f_equal. lia.
Qed.

Lemma held_fresh fd : (0 ≤ fd)%Z → held fd = [fd].
Proof.
  intros Hfd. unfold held, NO_REDIR. destruct (decide _); [lia|done].
Qed.

Lemma held_none : held NO_REDIR = [].
Proof. done. Qed.

Lemma length_held fd : length (held fd) ≤ 1.
Proof. unfold held. destruct (decide _); simpl; lia. Qed.

Lemma elem_of_held x fd : x ∈ held fd → x = fd ∧ fd ≠ NO_REDIR.
Proof.
  unfold held. destruct (decide _); [by intros ?%elem_of_nil|].
  by intros ->%list_elem_of_singleton.
Qed.

(** [open_input] when the file, if any, can be opened. *)
Lemma open_input_run c a next_stdin base w :
  w_fds w = (held next_stdin ++ base)%list →
  fresh_or_none next_stdin base →
  (in_pathname c ≠ None → a = 0 ∧ next_stdin = NO_REDIR) →
  (∀ path, in_pathname c = Some path → os_readable os path = true) →
  length base < os_fd_limit os →
  ∃ curr_stdin evs,
    open_input os c a next_stdin w
    = (Ok (Some curr_stdin), advanced (held curr_stdin ++ base) [] evs w)
    ∧ fresh_or_none curr_stdin base
    ∧ Forall quiet evs ∧ forked evs = [] ∧ waited evs = []
    ∧ (in_pathname c = None → curr_stdin = next_stdin)
    ∧ (∀ path, in_pathname c = Some path →
         Open path false curr_stdin ∈ evs).
Proof.
  intros Hfds Hfresh Hfirst Hread Hroom. unfold open_input.
  destruct (in_pathname c) as [path|] eqn:Hin.
  - destruct Hfirst as [-> ->]; [done|]. rewrite held_none in Hfds.
    simpl in Hfds.
    destruct (lowest_free_fresh base) as [Hpos Hnew].
    exists (lowest_free base), [Open path false (lowest_free base)].
    change (assert (bool_decide (0 = 0))) with (mret (M:=M) tt).
    rewrite bind_ret.
    erewrite bind_run
      by (apply (sys_open_run path false); [by apply Hread|by rewrite Hfds]).
    rewrite Hfds, bool_decide_eq_false_2 by lia.
    rewrite held_fresh by done.
    split_and!; [done|by right| |done|done|done|].
    + by repeat constructor.
    + intros p [= <-]. by left.
  - exists next_stdin, []. rewrite <- Hfds, advanced_id.
    split_and!; [done|done|constructor|done|done|done|done].
Qed.

(** [open_output] when the file, if any, can be opened and a pipe, if
    needed, can be made: [between] is the read end of the new pipe. *)
Lemma open_output_run l c a next_stdin curr_stdin base w :
  w_fds w = (held curr_stdin ++ base)%list →
  (out_pathname c ≠ None → is_last l a = true) →
  (∀ path, out_pathname c = Some path → os_writable os path = true) →
  length base + 3 ≤ os_fd_limit os →
  ∃ curr_stdout next_stdin' between evs,
    open_output os l c a next_stdin w
    = (Ok (Some (curr_stdout, next_stdin')),
       advanced (held curr_stdout ++ between ++ held curr_stdin ++ base)
         [] evs w)
    ∧ fresh_or_none curr_stdout (between ++ held curr_stdin ++ base)
    ∧ Forall quiet evs ∧ forked evs = [] ∧ waited evs = []
    ∧ (is_last l a = true →
         between = [] ∧ next_stdin' = next_stdin
         ∧ (out_pathname c = None → curr_stdout = NO_REDIR)
         ∧ (∀ path, out_pathname c = Some path →
              Open path true curr_stdout ∈ evs))
    ∧ (is_last l a = false →
         between = [next_stdin'] ∧ (0 ≤ next_stdin')%Z
         ∧ (next_stdin' ∉ (held curr_stdin ++ base)%list)
         ∧ evs = [Pipe next_stdin' curr_stdout; Cloexec next_stdin';
                  Cloexec curr_stdout]).
Proof.
  intros Hfds Hlast Hwrite Hroom. unfold open_output.
  pose proof (length_held curr_stdin) as Hheld.
  assert (length (w_fds w) ≤ length base + 1) as Hlen
    by (rewrite Hfds, length_app; lia).
  destruct (out_pathname c) as [path|] eqn:Hout.
  - rewrite Hlast by done.
    change (assert true) with (mret (M:=M) tt). rewrite bind_ret.
    destruct (lowest_free_fresh (w_fds w)) as [Hpos Hnew].
    erewrite bind_run
      by (apply (sys_open_run path true); [by apply Hwrite|lia]).
    rewrite bool_decide_eq_false_2 by lia.
    exists (lowest_free (w_fds w)), next_stdin, [],
      [Open path true (lowest_free (w_fds w))].
    rewrite held_fresh by done. simpl. rewrite <- Hfds.
    split_and!; [done|by right|by repeat constructor|done|done| |done].
    intros _. split_and!; [done..|]. intros p [= <-]. by left.
  - destruct (is_last l a) eqn:El; simpl.
    + exists NO_REDIR, next_stdin, [], []. rewrite held_none. simpl.
      rewrite <- Hfds, advanced_id.
      split_and!; [done|by left|constructor|done|done| |done].
      intros _. by split_and!.
    + destruct (lowest_free_fresh (w_fds w)) as [Hrd Hrd'].
      destruct (lowest_free_fresh (lowest_free (w_fds w) :: w_fds w))
        as [Hwr Hwr'].
      set (rd := lowest_free (w_fds w)) in *.
      set (wr := lowest_free (rd :: w_fds w)) in *.
      erewrite bind_run by (apply sys_pipe_run; lia). cbv beta iota.
      erewrite bind_run
        by (apply sys_cloexec_run; simpl; rewrite !elem_of_cons; auto).
      rewrite bool_decide_eq_false_2 by done.
      erewrite bind_run
        by (apply sys_cloexec_run; simpl; rewrite !elem_of_cons; auto).
      rewrite bool_decide_eq_false_2 by done.
      exists wr, rd, [rd], [Pipe rd wr; Cloexec rd; Cloexec wr].
      rewrite !advanced_advanced, held_fresh by done. simpl.
      rewrite <- Hfds.
      split_and!; [done|by right|by repeat constructor|done|done|done|].
      intros _. by split_and!.
Qed.

Lemma fds_advanced fds pids evs w : w_fds (advanced fds pids evs w) = fds.
Proof. done. Qed.

Lemma children_advanced_nil fds evs w :
  w_children (advanced fds [] evs w) = w_children w.
Proof. simpl. by rewrite app_nil_r. Qed.

Lemma next_pid_advanced_nil fds evs w :
  w_next_pid (advanced fds [] evs w) = w_next_pid w.
Proof. simpl. lia. Qed.

Lemma forked_app evs1 evs2 :
  forked (evs1 ++ evs2) = (forked evs1 ++ forked evs2)%list.
Proof. apply omap_app. Qed.

Lemma waited_app evs1 evs2 :
  waited (evs1 ++ evs2) = (waited evs1 ++ waited evs2)%list.
Proof. apply omap_app. Qed.

Lemma closes_quiet fd :
  Forall quiet (closes fd) ∧ forked (closes fd) = []
  ∧ waited (closes fd) = [].
Proof.
  unfold closes. destruct (decide _); split_and!; try done.
  by repeat constructor.
Qed.

(** One turn of the loop of [execute_line] when nothing fails. *)
Lemma launch_turn l base todo a next_stdin w c :
  commands l !! a = Some c → a + S todo = n_commands l →
  w_fds w = (held next_stdin ++ base)%list →
  fresh_or_none next_stdin base →
  (in_pathname c ≠ None → a = 0 ∧ next_stdin = NO_REDIR) →
  (out_pathname c ≠ None → todo = 0) →
  (∀ path, in_pathname c = Some path → os_readable os path = true) →
  (∀ path, out_pathname c = Some path → os_writable os path = true) →
  length base + 3 ≤ os_fd_limit os →
  length (w_children w) < os_proc_limit os →
  (0 ≤ w_next_pid w)%Z →
  ∃ curr_stdin curr_stdout next_stdin' evs,
    execute_line_loop os l (S todo) a next_stdin w
    = execute_line_loop os l todo (S a) next_stdin'
        (advanced (if decide (todo = 0) then base
                   else (held next_stdin' ++ base)%list)
           [w_next_pid w] evs w)
    ∧ Forall quiet evs ∧ waited evs = []
    ∧ forked evs = [(w_next_pid w, child_of c curr_stdin curr_stdout)]
    ∧ (in_pathname c = None → curr_stdin = next_stdin)
    ∧ (∀ path, in_pathname c = Some path →
         Open path false curr_stdin ∈ evs)
    ∧ (todo = 0 →
         (out_pathname c = None → curr_stdout = NO_REDIR)
         ∧ (∀ path, out_pathname c = Some path →
              Open path true curr_stdout ∈ evs))
    ∧ (todo ≠ 0 →
         Pipe next_stdin' curr_stdout ∈ evs
         ∧ (0 ≤ next_stdin')%Z ∧ (next_stdin' ∉ base)).
Proof.
  intros Hc Ha Hfds Hfresh Hfirst Hout Hread Hwrite Hroom Hprocs Hpid.
  assert (is_last l a = true ↔ todo = 0) as Hlast.
  { rewrite is_last_spec by lia. lia. }
  assert (todo ≠ 0 → is_last l a = false) as Hnot_last.
  { intros E. apply not_true_is_false. by intros ?%Hlast. }
  cbn [execute_line_loop]. unfold command_at. rewrite Hc.
  change (defined (Some c)) with (mret (M:=M) c). rewrite bind_ret.
  destruct (open_input_run c a next_stdin base w)
    as (cs & evs1 & Hrun1 & Hcs & Hq1 & Hf1 & Hw1 & Hin_none & Hin_some);
    [done|done|done|done|lia|].
  erewrite bind_run by exact Hrun1. cbv beta iota.
  destruct (open_output_run l c a next_stdin cs base
              (advanced (held cs ++ base) [] evs1 w))
    as (so & ns' & between & evs2 & Hrun2 & Hso & Hq2 & Hf2 & Hw2
        & Hlast_case & Hpipe_case);
    [done|by intros ?%Hout%Hlast|done|done|].
  erewrite bind_run by exact Hrun2. cbv beta iota.
  rewrite advanced_advanced, app_nil_r.
  erewrite bind_run.
  2:{ apply run_child_run;
        rewrite ?children_advanced_nil, ?next_pid_advanced_nil; lia. }
  rewrite fds_advanced, next_pid_advanced_nil, advanced_advanced, app_nil_l.
  assert (cs ≠ NO_REDIR → (cs ∉ (held so ++ between)%list) ∧ (cs ∉ base))
    as Hcs_fresh.
  { intros Hne. destruct Hcs as [?|[Hpos Hcs]]; [done|]. split; [|done].
    intros [Hin|Hin]%elem_of_app.
    - apply elem_of_held in Hin as [-> Hso_ne].
      destruct Hso as [?|[_ Hso]]; [done|]. apply Hso.
      rewrite !elem_of_app. right; left. rewrite held_fresh by done.
      by left.
    - destruct (is_last l a) eqn:El.
      + destruct (Hlast_case eq_refl) as (-> & _). by apply elem_of_nil in Hin.
      + destruct (Hpipe_case eq_refl) as (-> & _ & Hns' & _).
        apply list_elem_of_singleton in Hin as ->. apply Hns'.
        rewrite elem_of_app. left. rewrite held_fresh by done. by left. }
  erewrite bind_run.
  2:{ apply (close_if_needed_run cs (held so ++ between) base);
        [by rewrite fds_advanced, <- app_assoc|done]. }
  rewrite advanced_advanced, app_nil_r.
  assert (so ≠ NO_REDIR → (so ∉ @nil Z) ∧ (so ∉ (between ++ base)%list))
    as Hso_fresh.
  { intros Hne. destruct Hso as [?|[Hpos Hso]]; [done|].
    split; [apply not_elem_of_nil|].
    intros Hin. apply Hso. rewrite !elem_of_app in *. tauto. }
  erewrite bind_run.
  2:{ apply (close_if_needed_run so [] (between ++ base));
        [by rewrite fds_advanced, <- app_assoc|done]. }
  rewrite advanced_advanced, app_nil_r, app_nil_l.
  destruct (closes_quiet cs) as (Hq3 & Hf3 & Hw3).
  destruct (closes_quiet so) as (Hq4 & Hf4 & Hw4).
  eexists cs, so, ns', _. split_and!.
  - do 2 f_equal. destruct (decide (todo = 0)) as [E|E].
    + apply Hlast in E. by destruct (Hlast_case E) as (-> & _).
    + destruct (Hpipe_case (Hnot_last E)) as (-> & Hpos & _).
      by rewrite held_fresh.
  - rewrite !Forall_app. split_and!; try done. by repeat constructor.
  - by rewrite !waited_app, Hw1, Hw2, Hw3, Hw4.
  - by rewrite !forked_app, Hf1, Hf2, Hf3, Hf4.
  - done.
  - intros path Hp. rewrite !elem_of_app. do 4 left. by apply Hin_some.
  - intros E. apply Hlast in E.
    destruct (Hlast_case E) as (_ & _ & Hnone & Hsome).
    split; [done|]. intros path Hp. rewrite !elem_of_app.
    do 3 left. right. by apply Hsome.
  - intros E. destruct (Hpipe_case (Hnot_last E)) as (_ & Hpos & Hns' & ->).
    split_and!; [|done|].
    + rewrite !elem_of_app. do 3 left. right. by left.
    + intros Hin. apply Hns'. rewrite elem_of_app. by right.
Qed.

(** The whole loop when nothing fails: one child per command from the
    [a]-th on, with the descriptors [ios] as their standard input and
    output, then the supervision pass. *)
Lemma launch_loop l base todo a next_stdin w :
  wf_line l →
  (∀ j c, commands l !! j = Some c →
     ¬ misplaced_input j c ∧ ¬ misplaced_output l j c) →
  (∀ j c path, commands l !! j = Some c → in_pathname c = Some path →
     os_readable os path = true) →
  (∀ j c path, commands l !! j = Some c → out_pathname c = Some path →
     os_writable os path = true) →
  a + S todo = n_commands l →
  w_fds w = (held next_stdin ++ base)%list →
  fresh_or_none next_stdin base →
  (a = 0 → next_stdin = NO_REDIR) →
  length base + 3 ≤ os_fd_limit os →
  length (w_children w) + S todo ≤ os_proc_limit os →
  (0 ≤ w_next_pid w)%Z →
  ∃ evs ios,
    execute_line_loop os l (S todo) a next_stdin w
    = wait_for_children os
        (advanced base (seqZ (w_next_pid w) (Z.of_nat (S todo))) evs w)
    ∧ Forall quiet evs ∧ waited evs = []
    ∧ forked evs
      = zip (seqZ (w_next_pid w) (Z.of_nat (S todo)))
          (zip_with (fun c io => child_of c io.1 io.2)
             (drop a (commands l)) ios)
    ∧ length ios = S todo
    ∧ (∀ c, commands l !! a = Some c →
         ∃ i o, ios !! 0 = Some (i, o)
           ∧ (in_pathname c = None → i = next_stdin)
           ∧ (∀ path, in_pathname c = Some path → Open path false i ∈ evs))
    ∧ (∀ k i o i' o', ios !! k = Some (i, o) → ios !! S k = Some (i', o') →
         Pipe i' o ∈ evs)
    ∧ (∀ c i o, commands l !! (a + todo) = Some c →
         ios !! todo = Some (i, o) →
         (out_pathname c = None → o = NO_REDIR)
         ∧ (∀ path, out_pathname c = Some path → Open path true o ∈ evs)).
Proof.
  intros Hwf Hplaced Hread Hwrite. pose proof Hwf as (Hn & Hlen & _).
  revert a next_stdin w.
  induction todo as [|todo IH];
    intros a next_stdin w Ha Hfds Hfresh Hfirst Hroom Hprocs Hpid.
  - destruct (lookup_lt_is_Some_2 (commands l) a) as [c Hc]; [lia|].
    destruct (Hplaced a c Hc) as [Hin Hout].
    destruct (launch_turn l base 0 a next_stdin w c)
      as (cs & so & ns' & evs & Hrun & Hq & Hw & Hf & Hin_none & Hin_some
          & Hlast & _); try done; try lia.
    { intros Hp. destruct (decide (a = 0)) as [->|]; [auto|].
      by destruct Hin. }
    { intros path Hp. by eapply Hread. }
    { intros path Hp. by eapply Hwrite. }
    destruct (Hlast eq_refl) as [Hout_none Hout_some].
    exists evs, [(cs, so)]. rewrite Hrun, (drop_S _ _ _ Hc).
    split_and!; [done|done|done| |done| | |].
    + rewrite Hf. simpl. by destruct (drop (S a) (commands l)).
    + intros c' Hc'. assert (c' = c) as -> by congruence.
      by exists cs, so.
    + by intros k i o i' o' _ ?.
    + rewrite Nat.add_0_r. intros c' i o Hc' [= <- <-].
      assert (c' = c) as -> by congruence. done.
  - destruct (lookup_lt_is_Some_2 (commands l) a) as [c Hc]; [lia|].
    destruct (Hplaced a c Hc) as [Hin Hout].
    destruct (launch_turn l base (S todo) a next_stdin w c)
      as (cs & so & ns' & evs1 & Hrun & Hq1 & Hw1 & Hf1 & Hin_none & Hin_some
          & _ & Hpipe); try done; try lia.
    { intros Hp. destruct (decide (a = 0)) as [->|]; [auto|].
      by destruct Hin. }
    { intros Hp. destruct Hout. split; [done|lia]. }
    { intros path Hp. by eapply Hread. }
    { intros path Hp. by eapply Hwrite. }
    destruct Hpipe as (Hpipe & Hpos & Hns'); [done|].
    rewrite Hrun. destruct (decide (S todo = 0)) as [|_]; [done|].
    destruct (IH (S a) ns'
                (advanced (held ns' ++ base) [w_next_pid w] evs1 w))
      as (evs2 & ios & Hrun2 & Hq2 & Hw2 & Hf2 & Hlen2 & Hin2 & Hpipes2
          & Hout2); [lia|done|by right|done|done| | |].
    { simpl. rewrite length_app. simpl. lia. }
    { simpl. lia. }
    exists (evs1 ++ evs2)%list, ((cs, so) :: ios).
    rewrite Hrun2, advanced_advanced.
    assert (w_next_pid (advanced (held ns' ++ base) [w_next_pid w] evs1 w)
            = Z.succ (w_next_pid w)) as Hnext by (simpl; lia).
    rewrite Hnext in *.
    assert (seqZ (w_next_pid w) (Z.of_nat (S (S todo)))
            = w_next_pid w :: seqZ (Z.succ (w_next_pid w)) (Z.of_nat (S todo)))
      as Hseq.
    { rewrite seqZ_cons by lia. do 2 f_equal. lia. }
    rewrite Hseq, (drop_S _ _ _ Hc).
    split_and!.
    + done.
    + by apply Forall_app.
    + by rewrite waited_app, Hw1, Hw2.
    + by rewrite forked_app, Hf1, Hf2.
    + simpl. lia.
    + intros c' Hc'. assert (c' = c) as -> by congruence.
      exists cs, so. split_and!; [done|done|].
      intros path Hp. rewrite elem_of_app. left. by apply Hin_some.
    + intros [|k] i o i' o'; simpl.
      * intros [= <- <-] Hio'.
        destruct (lookup_lt_is_Some_2 (commands l) (S a)) as [c' Hc']; [lia|].
        destruct (Hin2 c' Hc') as (i2 & o2 & Hio2 & Hnone2 & _).
        assert (i2 = i') as -> by congruence.
        destruct (Hplaced (S a) c' Hc') as [Hin' _].
        rewrite Hnone2.
        { rewrite elem_of_app. by left. }
        destruct (in_pathname c') eqn:E; [|done]. destruct Hin'.
        split; [by rewrite E|lia].
      * intros Hio Hio'. rewrite elem_of_app. right. by eapply Hpipes2.
    + intros c' i o Hc' Hio. simpl in Hio.
      replace (a + S todo) with (S a + todo) in Hc' by lia.
      destruct (Hout2 c' i o Hc' Hio) as [Hnone Hsome].
      split; [done|]. intros path Hp. rewrite elem_of_app. right.
      by apply Hsome.
Qed.

Lemma waited_turn_events pids :
  waited (concat (turn_events os <$> pids)) = pids
  ∧ forked (concat (turn_events os <$> pids)) = []
  ∧ Forall quiet (concat (turn_events os <$> pids)).
Proof.
  induction pids as [|pid pids (IHw & IHf & IHq)]; [by split_and!|].
  cbn [fmap list_fmap concat]. rewrite waited_app, forked_app, Forall_app.
  rewrite IHw, IHf. unfold turn_events.
  destruct (decide (report_child os pid (os_status os pid) = ""));
    split_and!; try done; by repeat constructor.
Qed.

(** A line that is ready is launched without failure. *)
Lemma launch_ready line l w :
  ready_to_launch os line l w →
  ∃ evs ios,
    execute os line w
    = (Ok tt,
       {| w_cwd := w_cwd w; w_fds := w_fds w; w_children := [];
          w_next_pid := (w_next_pid w + Z.of_nat (n_commands l))%Z;
          w_trace :=
            (w_trace w ++ evs
             ++ concat (turn_events os
                        <$> w_children w ++ new_pids w (n_commands l)))%list
       |})
    ∧ Forall quiet evs ∧ waited evs = []
    ∧ forked evs
      = zip (new_pids w (n_commands l))
          (zip_with (fun c io => child_of c io.1 io.2) (commands l) ios)
    ∧ length ios = n_commands l
    ∧ (∀ c, commands l !! 0 = Some c →
         ∃ i o, ios !! 0 = Some (i, o)
           ∧ (in_pathname c = None → i = NO_REDIR)
           ∧ (∀ path, in_pathname c = Some path → Open path false i ∈ evs))
    ∧ (∀ k i o i' o', ios !! k = Some (i, o) → ios !! S k = Some (i', o') →
         Pipe i' o ∈ evs)
    ∧ (∀ c i o, commands l !! (n_commands l - 1) = Some c →
         ios !! (n_commands l - 1) = Some (i, o) →
         (out_pathname c = None → o = NO_REDIR)
         ∧ (∀ path, out_pathname c = Some path → Open path true o ∈ evs)).
Proof.
  intros (Hparse & Hredir & Hcd & Hnotcd & Hread & Hwrite & Hroom & Hprocs
          & Hpid & Hpos).
  rewrite (execute_parsed _ _ _ _ w Hparse), Hredir, Hcd.
  change (written Stderr "" (written Stderr "" w)) with w.
  apply parse_line_wf in Hparse as (Hwf & _).
  pose proof Hwf as (Hn & Hlen & _).
  destruct (check_redirections_loop_spec l (n_commands l) 0 Hwf)
    as (rv & m & Hrv & Hok & _); [lia|].
  fold (check_redirections l) in Hrv. rewrite Hredir in Hrv.
  injection Hrv as <- <-. destruct (Hok eq_refl) as [_ Hplaced].
  destruct (wf_line_first l Hwf) as [c0 Hc0].
  pose proof (wf_line_lookup _ _ _ Hwf Hc0) as Hwc.
  destruct (arg_at_defined c0 0 Hwc) as [name Hname]; [destruct Hwc; lia|].
  unfold execute_line, command_at. rewrite Hc0.
  change (defined (Some c0)) with (mret (M:=M) c0).
  rewrite bind_ret, Hname.
  change (defined (Some name)) with (mret (M:=M) name).
  rewrite bind_ret, bool_decide_eq_false_2.
  2:{ intros <-. by apply (Hnotcd c0). }
  destruct (n_commands l) as [|todo] eqn:En; [lia|].
  destruct (launch_loop l (w_fds w) todo 0 NO_REDIR w)
    as (evs & ios & Hrun & Hq & Hw & Hf & Hlen' & Hin & Hpipes & Hout);
    try done; try lia.
  { intros j c Hc. apply Hplaced; [lia|done]. }
  { intros j c path Hc. apply Hread. by eapply list_elem_of_lookup_2. }
  { intros j c path Hc. apply Hwrite. by eapply list_elem_of_lookup_2. }
  { by left. }
  exists evs, ios. rewrite Hrun. unfold wait_for_children.
  rewrite wait_for_children_loop_spec.
  2:{ simpl. apply Forall_app. split; [done|].
      apply Forall_forall. intros pid Hin'%elem_of_seqZ. lia. }
  unfold new_pids. rewrite drop_0 in Hf. simpl Nat.sub. rewrite Nat.sub_0_r.
  split_and!; [|done..| |done|done].
  - simpl. rewrite length_seqZ, <- app_assoc. do 2 f_equal. lia.
  - intros c [= <-]. by apply Hin.
Qed.


(** X9: a line that is ready is launched without failure and without
    leak: [execute] returns, the shell holds the same descriptors as
    before, in the same working directory, and no event of the launch shows
    an error: every [open] and every [close] succeeded and nothing was
    printed by [perror]. *)
Theorem launch_leaves_descriptors (line : string) (l : line_t) (w : world) :
  ready_to_launch os line l w →
  ∃ w' evs,
    execute os line w = (Ok tt, w')
    ∧ w_trace w' = (w_trace w ++ evs)%list
    ∧ w_fds w' = w_fds w ∧ w_cwd w' = w_cwd w
    ∧ Forall quiet evs.
Proof.
  intros (evs & ios & Hrun & Hq & _)%launch_ready.
  eexists _, _. split; [exact Hrun|]. simpl. split_and!; [done..|].
  apply Forall_app. split; [done|]. apply waited_turn_events.
Qed.




End Steps.

(** ** Why the shell ends *)

Section Exits.

Variable os : os_t.



Lemma exits_for_resources_ret {A} (a : A) :
  exits_for_resources os (mret a).
Proof. by intros w. Qed.

Lemma exits_for_resources_perror msg : exits_for_resources os (perror msg).
Proof. by intros w. Qed.

Lemma exits_for_resources_assert : exits_for_resources os (assert true).
Proof. by intros w. Qed.


Lemma exits_for_resources_sys_chdir dir :
  exits_for_resources os (sys_chdir os dir).
Proof. intros w. unfold sys_chdir. by destruct (os_chdir _ _ _). Qed.











End Exits.

(** ** Examples of the further properties *)

Lemma parse_cmd_reads_tokens_witness :
  parse_cmd demo_env "sort <in.txt -r $X >out.txt" = (Some command_sort, "")
  ∧ take 3 (args command_sort) = [Ptr "sort"; Ptr "-r"; Ptr "5"]
  ∧ input_paths (fields BLANKS "sort <in.txt -r $X >out.txt") = ["in.txt"]
  ∧ output_paths (fields BLANKS "sort <in.txt -r $X >out.txt") = ["out.txt"].
Proof.
  assert (parse_cmd demo_env "sort <in.txt -r $X >out.txt"
          = (Some command_sort, "")) as H by (by vm_compute).
  split; [done|].
  destruct (parse_cmd_reads_tokens demo_env _ _ _ H)
    as (Hargs & _ & Hin & Hout & _).
  split_and!; [done|exact Hin|exact Hout].
Defined.

Lemma parse_cmd_diagnostics_witness :
  parse_cmd demo_env "a <x <y"
  = (None,
     line_of "Parsing error: cannot have more than one input redirection")
  ∧ (2 ≤ length (input_paths (fields BLANKS "a <x <y"))
     ∨ "" ∈ input_paths (fields BLANKS "a <x <y")
     ∨ 2 ≤ length (output_paths (fields BLANKS "a <x <y"))
     ∨ "" ∈ output_paths (fields BLANKS "a <x <y")
     ∨ argument_tokens (fields BLANKS "a <x <y") = []).
Proof.
  assert (parse_cmd demo_env "a <x <y"
          = (None,
             line_of
               "Parsing error: cannot have more than one input redirection"))
    as H by (by vm_compute).
  split; [done|].
  destruct (parse_cmd_diagnostics demo_env _ _ H)
    as [[_ ?]|[[_ ?]|[[_ ?]|[[_ ?]|[_ ?]]]]]; auto.
Defined.

Lemma parse_line_diagnostics_witness :
  parse_line demo_env "a | <x <y | >"
  = (None,
     line_of "Parsing error: cannot have more than one input redirection")
  ∧ ∃ pre seg post,
      fields PIPE "a | <x <y | >" = (pre ++ seg :: post)%list
      ∧ Forall (fun s => is_Some (parse_cmd demo_env s).1) pre
      ∧ parse_cmd demo_env seg
        = (None,
           line_of
             "Parsing error: cannot have more than one input redirection").
Proof.
  assert (parse_line demo_env "a | <x <y | >"
          = (None,
             line_of
               "Parsing error: cannot have more than one input redirection"))
    as H by (by vm_compute).
  split; [done|].
  destruct (parse_line_diagnostics demo_env _ _ H)
    as [[Hnone _]|(pre & seg & post & Hsegs & Hpre & Hseg & _)].
  - by vm_compute in Hnone.
  - by exists pre, seg, post.
Defined.

Lemma unreadable_input_witness :
  commands line_sort_missing !! 0 = Some command_sort_missing
  ∧ arg_at command_sort_missing 0 = Some "sort"
  ∧ "sort" ≠ "cd"
  ∧ 1 ≤ n_commands line_sort_missing
  ∧ in_pathname command_sort_missing = Some "missing.txt"
  ∧ os_readable demo_os "missing.txt" = false
  ∧ parse_line demo_env "sort <missing.txt | wc"
    = (Some line_sort_missing, "")
  ∧ execute_line demo_os line_sort_missing demo_world
    = (Ok tt,
       log (Perror "missing.txt")
         (log (Open "missing.txt" false (-1)) demo_world)).
Proof.
  assert ("sort" ≠ "cd") as Hname by done.
  assert (1 ≤ n_commands line_sort_missing) as Hn by (simpl; lia).
  split_and!; [done..|by vm_compute|].
  exact (unreadable_input_spawns_nothing demo_os line_sort_missing
           command_sort_missing "sort" "missing.txt" demo_world
           eq_refl eq_refl Hname Hn eq_refl eq_refl).
Defined.

(** The line "sort <in.txt | uniq $X | wc >out.txt" is ready to be launched
    in the example system. *)
Lemma sort_uniq_wc_ready :
  ready_to_launch demo_os "sort <in.txt | uniq $X | wc >out.txt"
    line_sort_uniq_wc demo_world.
Proof.
  unfold ready_to_launch. split_and!.
  - by vm_compute.
  - by vm_compute.
  - by vm_compute.
  - by intros c0 [= <-].
  - intros c path Hc Hp. simpl in Hc.
    rewrite !elem_of_cons, elem_of_nil in Hc.
    destruct Hc as [-> | [-> | [-> | []]]]; simpl in Hp;
      first [discriminate | by injection Hp as <-].
  - intros c path Hc Hp. simpl in Hc.
    rewrite !elem_of_cons, elem_of_nil in Hc.
    destruct Hc as [-> | [-> | [-> | []]]]; simpl in Hp;
      first [discriminate | by injection Hp as <-].
  - simpl. lia.
  - simpl. lia.
  - simpl. lia.
  - constructor.
Defined.

Lemma launch_leaves_descriptors_witness :
  ready_to_launch demo_os "sort <in.txt | uniq $X | wc >out.txt"
    line_sort_uniq_wc demo_world
  ∧ ∃ w' evs,
      execute demo_os "sort <in.txt | uniq $X | wc >out.txt" demo_world
      = (Ok tt, w')
      ∧ w_trace w' = evs
      ∧ w_fds w' = [0; 1; 2]%Z ∧ w_cwd w' = "/"
      ∧ Forall quiet evs.
Proof.
  split; [exact sort_uniq_wc_ready|].
  destruct (launch_leaves_descriptors demo_os _ _ _ sort_uniq_wc_ready)
    as (w' & evs & Hrun & Htrace & Hfds & Hcwd & Hquiet).
  exists w', evs.
  split_and!; [exact Hrun|exact Htrace|exact Hfds|exact Hcwd|exact Hquiet].
Defined.




